(** * use-form-schema: the constraint evaluator and the schema validator

    A shallow embedding of [src/index.js] (the four closures
    [checkConstraint], [checkConstraints], [validateField] and
    [validateForm] of the [useFormSchema] hook) together with the
    properties of the validation engine.

    Modelling conventions.
    - A JavaScript object used as a record (the schema, a field's rules,
      the data record, the error report) is the list of its own
      enumerable properties in the order [Object.entries] yields them.
      Each of these objects inherits from [Object.prototype]: a lookup
      [o[k]] that finds no own property finds the member of
      [Object.prototype] named [k], when there is one.
    - A field value is what [FormData] hands over, a primitive or a file
      descriptor with a [name], a [size] and a [type], or what a lookup in
      the data record inherits, a member of [Object.prototype].
    - Numbers are integers; strings are sequences of code units below 256.
      The relational comparison of two values ([<] and its siblings, with
      their string-to-number coercions) and the string conversion of
      non-primitive values belong to the JavaScript runtime and are
      parameters of the model; a parameter object that brings a [valueOf]
      or a [toString] of its own, which these conversions would call, is
      outside the model.
    - Caller-supplied functions are referred to by an identifier and get
      their meaning from an environment; they may read and write a store
      and may throw, but they return: a function that loops is outside the
      model, and so is one that changes the schema or the data record it
      is handed.
    - A regular expression is a pattern of the fragment below, with the
      global and the sticky flag; the object owns a [lastIndex] cell of
      the store, which [test] reads and writes when a flag is set. *)

From Stdlib Require Import String Ascii List ZArith NArith Bool Lia Arith.
From Stdlib Require Import DecimalString.
Import ListNotations.
Open Scope string_scope.
Open Scope list_scope.
Open Scope nat_scope.

Set Implicit Arguments.
Set Warnings "-register-all".

(** ** Regular expressions (the fragment used by the pattern registry) *)

Module Regex.

(** A code unit. *)
Definition cu := N.

Inductive regex : Type :=
| Eps
| Class (neg : bool) (ranges : list (cu * cu))
| Seq (r1 r2 : regex)
| Alt (r1 r2 : regex)
| Star (r : regex)
| Bol
| Eol.

Definition Chr (c : cu) : regex := Class false [(c, c)].
Definition Plus (r : regex) : regex := Seq r (Star r).
Definition Opt (r : regex) : regex := Alt r Eps.

Definition in_ranges (ranges : list (cu * cu)) (c : cu) : bool :=
  existsb (fun '(lo, hi) => (lo <=? c)%N && (c <=? hi)%N) ranges.

Definition class_mem (neg : bool) (ranges : list (cu * cu)) (c : cu) : bool :=
  xorb neg (in_ranges ranges c).

(** A continuation: what to do from an index and the input left there. *)
Definition cont : Type := nat -> list cu -> option nat.

(** The greedy star over the matcher [mr] of its body: one more iteration
    when the body matches and consumes something, the continuation
    otherwise.  Every iteration consumes a code unit, so [fuel], the
    length of the input left, bounds their number. *)
Fixpoint star_loop (mr : cont -> cont) (k : cont) (fuel : nat) (i : nat) (s : list cu)
  {struct fuel} : option nat :=
  match fuel with
  | O => k i s
  | S fuel' =>
      match mr (fun j s' => if i <? j then star_loop mr k fuel' j s' else None) i s with
      | Some e => Some e
      | None => k i s
      end
  end.

(** The backtracking matcher of the language definition: [m r k i s]
    matches [r] at index [i], where [s] is the input from [i] on, and hands
    the end index and the rest of the input to the continuation [k]. *)
Fixpoint m (r : regex) (k : cont) (i : nat) (s : list cu) {struct r} : option nat :=
  match r with
  | Eps => k i s
  | Class neg ranges =>
      match s with
      | c :: s' => if class_mem neg ranges c then k (S i) s' else None
      | [] => None
      end
  | Seq r1 r2 => m r1 (m r2 k) i s
  | Alt r1 r2 =>
      match m r1 k i s with
      | Some e => Some e
      | None => m r2 k i s
      end
  | Star r1 => star_loop (m r1) k (length s) i s
  | Bol => if i =? 0 then k i s else None
  | Eol => match s with [] => k i s | _ :: _ => None end
  end.

(** A match of [r] that starts exactly at index [i] of [s]: its end index. *)
Definition match_at (r : regex) (s : list cu) (i : nat) : option nat :=
  m r (fun e _ => Some e) i (skipn i s).

(** The leftmost match at or after index [i]: its end index. *)
Fixpoint search_from (r : regex) (s : list cu) (i : nat) (tries : nat) : option nat :=
  match match_at r s i with
  | Some e => Some e
  | None =>
      match tries with
      | O => None
      | S tries' => search_from r s (S i) tries'
      end
  end.

Definition code_units (s : string) : list cu :=
  map N_of_ascii (list_ascii_of_string s).

(** [r.test(s)] for a regular expression without the global and sticky flags. *)
Definition test (r : regex) (s : string) : bool :=
  let u := code_units s in
  match search_from r u 0 (length u) with Some _ => true | None => false end.

(** The same test on a sequence of code units, whatever they are. *)
Definition accepts (r : regex) (u : list cu) : bool :=
  match search_from r u 0 (length u) with Some _ => true | None => false end.

(** What the matcher looks for, said without a search order: [Matches r i
    p rest] when [r] matches the code units [p] that start at index [i] and
    are followed by [rest] up to the end of the input. *)
Inductive Matches : regex -> nat -> list cu -> list cu -> Prop :=
| MEps i rest : Matches Eps i [] rest
| MClass neg ranges c i rest :
    class_mem neg ranges c = true -> Matches (Class neg ranges) i [c] rest
| MSeq r1 r2 i p1 p2 rest :
    Matches r1 i p1 (p2 ++ rest) -> Matches r2 (i + length p1) p2 rest ->
    Matches (Seq r1 r2) i (p1 ++ p2) rest
| MAltL r1 r2 i p rest : Matches r1 i p rest -> Matches (Alt r1 r2) i p rest
| MAltR r1 r2 i p rest : Matches r2 i p rest -> Matches (Alt r1 r2) i p rest
| MStarNil r i rest : Matches (Star r) i [] rest
| MStarCons r i p1 p2 rest :
    p1 <> [] -> Matches r i p1 (p2 ++ rest) -> Matches (Star r) (i + length p1) p2 rest ->
    Matches (Star r) i (p1 ++ p2) rest
| MBol rest : Matches Bol 0 [] rest
| MEol i : Matches Eol i [] [].

(** Character classes. *)
Definition digit : regex := Class false [(48, 57)]%N.
Definition white_space : list (cu * cu) :=
  [(9, 13); (32, 32); (160, 160); (5760, 5760); (8192, 8202); (8232, 8233);
   (8239, 8239); (8287, 8287); (12288, 12288); (65279, 65279)]%N.
Definition line_terminators : list (cu * cu) :=
  [(10, 10); (13, 13); (8232, 8233)]%N.
(** [\S] and [.] *)
Definition non_space : regex := Class true white_space.
Definition dot : regex := Class true line_terminators.

Definition singletons (l : list cu) : list (cu * cu) := map (fun c => (c, c)) l.

(** A non-empty string of decimal digits. *)
Definition digits (p : list cu) : Prop :=
  p <> [] /\ forallb (class_mem false [(48, 57)]%N) p = true.

(** A non-empty string of code units that are not white space. *)
Definition text (p : list cu) : Prop :=
  p <> [] /\ forallb (class_mem true white_space) p = true.

End Regex.


(** ** Values *)

Inductive prim : Type :=
| PUndefined
| PNull
| PBool (b : bool)
| PNum (n : Z)
| PStr (s : string).

(** A regular expression object: its identity, its pattern and its flags. *)
Record RegExp : Type := mkRegExp {
  re_loc : nat;
  re_source : Regex.regex;
  re_global : bool;
  re_sticky : bool
}.

(** The members of [Object.prototype], which every object inherits: eleven
    functions and, under [__proto__], [Object.prototype] itself. *)
Inductive member : Type :=
| MConstructor
| MDefineGetter
| MDefineSetter
| MHasOwnProperty
| MLookupGetter
| MLookupSetter
| MIsPrototypeOf
| MPropertyIsEnumerable
| MToString
| MValueOf
| MProto
| MToLocaleString.

(** What a schema may hold as constraint parameters and what a
    caller-supplied function may return.  A function is known by its
    identifier and its declared number of parameters. *)
Inductive value : Type :=
| VPrim (p : prim)
| VArr (elems : list value)
| VObj (props : list (string * value))
| VRegExp (r : RegExp)
| VFun (id : nat) (arity : nat)
| VError
| VMember (m : member).

(** A field value of the data record: a scalar, a file descriptor, or the
    member of [Object.prototype] that [data[k]] reads when the record has
    no property [k] of its own. *)
Inductive fieldValue : Type :=
| Scalar (p : prim)
| File (name : string) (size : Z) (type : string)
| Member (m : member).

Definition undefined : value := VPrim PUndefined.
Definition vbool (b : bool) : value := VPrim (PBool b).
Definition vnum (n : Z) : value := VPrim (PNum n).
Definition vstr (s : string) : value := VPrim (PStr s).

(** ** Objects as property lists *)

Section Objects.
Context {A : Type}.

Definition obj : Type := list (string * A).

(** [o[k]] for an own property. *)
Fixpoint obj_get (o : obj) (k : string) : option A :=
  match o with
  | [] => None
  | (k', v) :: o' => if String.eqb k' k then Some v else obj_get o' k
  end.

(** [o[k] = v]: an existing property keeps its place, a new one goes last. *)
Fixpoint obj_set (o : obj) (k : string) (v : A) : obj :=
  match o with
  | [] => [(k, v)]
  | (k', v') :: o' =>
      if String.eqb k' k then (k, v) :: o' else (k', v') :: obj_set o' k v
  end.

(** [Object.keys(o)] *)
Definition obj_keys (o : obj) : list string := map fst o.

(** [Array.prototype.includes] on an array of strings. *)
Definition keys_include (ks : list string) (k : string) : bool :=
  existsb (String.eqb k) ks.

(** [{ ...o1, ...o2 }] *)
Definition obj_spread (o1 o2 : obj) : obj :=
  fold_left (fun acc kv => obj_set acc (fst kv) (snd kv)) o2 o1.

End Objects.

Arguments obj : clear implicits.

(** The names under which an object inherits from [Object.prototype]. *)
Definition members : obj member :=
  [("constructor", MConstructor); ("__defineGetter__", MDefineGetter);
   ("__defineSetter__", MDefineSetter); ("hasOwnProperty", MHasOwnProperty);
   ("__lookupGetter__", MLookupGetter); ("__lookupSetter__", MLookupSetter);
   ("isPrototypeOf", MIsPrototypeOf); ("propertyIsEnumerable", MPropertyIsEnumerable);
   ("toString", MToString); ("valueOf", MValueOf); ("__proto__", MProto);
   ("toLocaleString", MToLocaleString)].

(** What [o[k]] finds on the prototype when [o] has no own property [k]. *)
Definition lookup_member (k : string) : option member := obj_get members k.

Definition inherited (k : string) : bool :=
  match lookup_member k with
  | Some _ => true
  | None => false
  end.

(** The [name] of a member that is a function: [constructor] is the
    function [Object], the others are named like their property.
    [Object.prototype] itself has no [name]; the engine never asks for
    it. *)
Definition member_name (m : member) : string :=
  match m with
  | MConstructor => "Object"
  | MDefineGetter => "__defineGetter__"
  | MDefineSetter => "__defineSetter__"
  | MHasOwnProperty => "hasOwnProperty"
  | MLookupGetter => "__lookupGetter__"
  | MLookupSetter => "__lookupSetter__"
  | MIsPrototypeOf => "isPrototypeOf"
  | MPropertyIsEnumerable => "propertyIsEnumerable"
  | MToString => "toString"
  | MValueOf => "valueOf"
  | MProto => ""
  | MToLocaleString => "toLocaleString"
  end.

(** The [length] of a member: the number of parameters of a function,
    nothing for [Object.prototype]. *)
Definition member_length (m : member) : option nat :=
  match m with
  | MDefineGetter | MDefineSetter => Some 2
  | MConstructor | MHasOwnProperty | MLookupGetter | MLookupSetter
  | MIsPrototypeOf | MPropertyIsEnumerable => Some 1
  | MToString | MValueOf | MToLocaleString => Some 0
  | MProto => None
  end.

(** The data record, a field's rules, the schema, the error report. *)
Definition dataRecord : Type := obj fieldValue.
Definition fieldRules : Type := obj value.
Definition schema : Type := obj fieldRules.
Definition errorReport : Type := obj (list value).

(** ** Primitive operations of the language *)

Definition truthy_prim (p : prim) : bool :=
  match p with
  | PUndefined | PNull => false
  | PBool b => b
  | PNum n => negb (n =? 0)%Z
  | PStr s => negb (String.eqb s "")
  end.

Definition truthy (v : value) : bool :=
  match v with
  | VPrim p => truthy_prim p
  | _ => true
  end.

(** [p === q] on primitives. *)
Definition prim_eqb (p q : prim) : bool :=
  match p, q with
  | PUndefined, PUndefined => true
  | PNull, PNull => true
  | PBool a, PBool b => Bool.eqb a b
  | PNum a, PNum b => (a =? b)%Z
  | PStr a, PStr b => String.eqb a b
  | _, _ => false
  end.

(** [p === v] when one side is a primitive: an object is never equal to it. *)
Definition strict_eq_prim (p : prim) (v : value) : bool :=
  match v with
  | VPrim q => prim_eqb p q
  | _ => false
  end.

Definition strict_eq_field (p : prim) (fv : fieldValue) : bool :=
  match fv with
  | Scalar q => prim_eqb p q
  | File _ _ _ | Member _ => false
  end.

(** What the second [switch] of [checkConstraint] examines, a value
    without a [name]: a primitive or, when [data.__proto__] was read,
    [Object.prototype] itself. *)
Inductive nameless : Type :=
| Plain (p : prim)
| ThePrototype.

Definition truthy_nameless (v : nameless) : bool :=
  match v with
  | Plain p => truthy_prim p
  | ThePrototype => true
  end.

(** [v === x] for a constraint parameter [x]. *)
Definition nameless_eq (v : nameless) (x : value) : bool :=
  match v, x with
  | Plain p, _ => strict_eq_prim p x
  | ThePrototype, VMember MProto => true
  | ThePrototype, _ => false
  end.

(** [v === fv] for a value [fv] of the data record. *)
Definition nameless_eq_field (v : nameless) (fv : fieldValue) : bool :=
  match v, fv with
  | Plain p, _ => strict_eq_field p fv
  | ThePrototype, Member MProto => true
  | ThePrototype, _ => false
  end.

Definition nameless_to_value (v : nameless) : value :=
  match v with
  | Plain p => VPrim p
  | ThePrototype => VMember MProto
  end.

Definition nameless_to_field (v : nameless) : fieldValue :=
  match v with
  | Plain p => Scalar p
  | ThePrototype => Member MProto
  end.

Definition string_of_Z (n : Z) : string := NilZero.string_of_int (Z.to_int n).
Definition string_of_nat (n : nat) : string := string_of_Z (Z.of_nat n).

(** [String(p)] *)
Definition prim_to_string (p : prim) : string :=
  match p with
  | PUndefined => "undefined"
  | PNull => "null"
  | PBool true => "true"
  | PBool false => "false"
  | PNum n => string_of_Z n
  | PStr s => s
  end.

(** [s.includes(t)] on strings. *)
Fixpoint string_includes (s t : string) : bool :=
  if String.prefix t s then true
  else match s with
       | EmptyString => false
       | String _ s' => string_includes s' t
       end.

(** [s.split('.')]: the pieces between the dots, never an empty list. *)
Fixpoint split_dot (s : string) : list string :=
  match s with
  | EmptyString => [EmptyString]
  | String c s' =>
      if Ascii.eqb c "."%char then EmptyString :: split_dot s'
      else match split_dot s' with
           | piece :: rest => String c piece :: rest
           | [] => [String c EmptyString]
           end
  end.

(** [name.split('.').pop()] *)
Definition extension (name : string) : string :=
  last (split_dot name) EmptyString.

(** The file descriptor and the data record as seen by a callback. *)
Definition field_to_value (fv : fieldValue) : value :=
  match fv with
  | Scalar p => VPrim p
  | File name size type =>
      VObj [("name", vstr name); ("size", vnum size); ("type", vstr type)]
  | Member m => VMember m
  end.

Definition data_to_value (data : dataRecord) : value :=
  VObj (map (fun kv => (fst kv, field_to_value (snd kv))) data).

(** [data[k]]: the own property, else the inherited member, else
    [undefined]. *)
Definition data_get (data : dataRecord) (k : string) : fieldValue :=
  match obj_get data k with
  | Some fv => fv
  | None =>
      match lookup_member k with
      | Some m => Member m
      | None => Scalar PUndefined
      end
  end.

Definition prop (props : obj value) (k : string) : value :=
  match obj_get props k with
  | Some v => v
  | None => undefined
  end.

(** ** Outcomes and the evaluation monad *)

Inductive exn : Type :=
| TypeError
| Raised (v : value).

Inductive outcome (A : Type) : Type :=
| Ret (a : A)
| Throw (e : exn).

Arguments Ret {A} a.
Arguments Throw {A} e.

(** A computation reads and writes a store and returns or throws. *)
Definition M (S A : Type) : Type := S -> outcome A * S.

Definition ret {S A : Type} (a : A) : M S A := fun st => (Ret a, st).
Definition throw {S A : Type} (e : exn) : M S A := fun st => (Throw e, st).
Definition lift {S A : Type} (o : outcome A) : M S A := fun st => (o, st).

Definition bind {S A B : Type} (c : M S A) (k : A -> M S B) : M S B :=
  fun st =>
    match c st with
    | (Ret a, st') => k a st'
    | (Throw e, st') => (Throw e, st')
    end.

Notation "x <- c ;; k" := (bind c (fun x => k))
  (at level 61, c at next level, right associativity).

(** [for (const x of l) acc = body(acc, x)] *)
Fixpoint for_of {S A B : Type} (l : list A) (body : B -> A -> M S B) (acc : B)
  : M S B :=
  match l with
  | [] => ret acc
  | x :: l' => acc' <- body acc x ;; for_of l' body acc'
  end.

(** [switch (name) { case ...: ...; default: ... }] on string labels. *)
Fixpoint switch {A : Type} (name : string) (cases : list (string * A)) (default : A) : A :=
  match cases with
  | [] => default
  | (label, body) :: cases' =>
      if String.eqb name label then body else switch name cases' default
  end.

(** ** The pattern registry (lines 87-93) *)

Module Patterns.
Import Regex.

Definition code (a : ascii) : cu := N_of_ascii a.

(** [/^\S+@\S+\.\S+$/] *)
Definition email : regex :=
  Seq Bol (Seq (Plus non_space) (Seq (Chr (code "@")) (Seq (Plus non_space)
    (Seq (Chr (code ".")) (Seq (Plus non_space) Eol))))).

(** [/-?\\d*(\\.\\d+)?$/]: in a regular expression literal [\\] is one
    literal backslash, so [\\d] is a backslash followed by the letter d. *)
Definition number : regex :=
  Seq (Opt (Chr (code "-")))
    (Seq (Chr (code "\")) (Seq (Star (Chr (code "d")))
      (Seq (Opt (Seq (Chr (code "\")) (Seq dot (Seq (Chr (code "\")) (Plus (Chr (code "d")))))))
        Eol))).

(** [/^[0-9]+.[0-9]+$/] *)
Definition double : regex :=
  Seq Bol (Seq (Plus digit) (Seq dot (Seq (Plus digit) Eol))).

(** [/^[0-9]+/] *)
Definition integer : regex := Seq Bol (Plus digit).

(** The characters listed in the negated class of [alpha]; the four code
    units above 255 are U+201C, U+2019, U+0E50 and U+0E3F. *)
Definition alpha_blacklist : list cu :=
  code_units "`~-!@#$%^&*()_+={}[]|\:;" ++ [8220; 8217]%N
    ++ code_units "<,>.?" ++ [3664; 3647]%N.

(** [/^[^...]*$/] *)
Definition alpha : regex :=
  Seq Bol (Seq (Star (Class true (singletons alpha_blacklist))) Eol).

Definition patterns : obj regex :=
  [("email", email); ("number", number); ("double", double);
   ("integer", integer); ("alpha", alpha)].

End Patterns.

(** ** The store

    [lastIndex] holds the [lastIndex] property of every regular expression
    object, by identity; [world] is whatever the caller's functions keep. *)
Record store (W : Type) : Type := mkStore {
  lastIndex : nat -> nat;
  world : W
}.

(** ** The environment of a validation

    [arc x y] is the runtime's relational comparison [x < y], [None] when
    it is undefined; [objToString] is the runtime's string conversion of a
    value that is not a primitive; [call id args] runs the caller-supplied
    function [id]; [native m args] is what the runtime's own function [m]
    of [Object.prototype] answers when it is called as a function, without
    a receiver.  The receiver of a method call is not passed on: a method
    that looks at [this] is outside the model. *)
Record env (W : Type) : Type := mkEnv {
  arc : value -> value -> option bool;
  objToString : value -> string;
  call : nat -> list value -> M (store W) value;
  native : member -> list value -> outcome value
}.

(** ** The engine *)

Section Engine.

(** The part of the store that belongs to the caller's functions. *)
Variable W : Type.

(** The computations of the engine. *)
Definition comp (A : Type) : Type := M (store W) A.

Variable rt : env W.

Definition js_lt (x y : value) : bool :=
  match arc rt x y with Some b => b | None => false end.
Definition js_gt (x y : value) : bool :=
  match arc rt y x with Some b => b | None => false end.
Definition js_le (x y : value) : bool :=
  match arc rt y x with Some false => true | _ => false end.
Definition js_ge (x y : value) : bool :=
  match arc rt x y with Some false => true | _ => false end.

(** The property key a value is converted to in [o[v]]. *)
Definition to_property_key (v : value) : string :=
  match v with
  | VPrim p => prim_to_string p
  | _ => objToString rt v
  end.

(** [v[i]] *)
Definition get_index (v : value) (i : nat) : outcome value :=
  match v with
  | VPrim PUndefined | VPrim PNull => Throw TypeError
  | VPrim (PStr s) =>
      match String.get i s with
      | Some c => Ret (vstr (String c EmptyString))
      | None => Ret undefined
      end
  | VPrim _ => Ret undefined
  | VArr elems => Ret (nth i elems undefined)
  | VObj props => Ret (prop props (string_of_nat i))
  | VRegExp _ | VFun _ _ | VError | VMember _ => Ret undefined
  end.

(** [v.length] *)
Definition get_length (v : value) : outcome value :=
  match v with
  | VPrim PUndefined | VPrim PNull => Throw TypeError
  | VPrim (PStr s) => Ret (vnum (Z.of_nat (String.length s)))
  | VPrim _ => Ret undefined
  | VArr elems => Ret (vnum (Z.of_nat (List.length elems)))
  | VObj props => Ret (prop props "length")
  | VFun _ arity => Ret (vnum (Z.of_nat arity))
  | VMember m =>
      match member_length m with
      | Some arity => Ret (vnum (Z.of_nat arity))
      | None => Ret undefined
      end
  | VRegExp _ | VError => Ret undefined
  end.

(** [p.length] for a primitive that is neither [undefined] nor [null]. *)
Definition prim_length (p : prim) : value :=
  match p with
  | PStr s => vnum (Z.of_nat (String.length s))
  | _ => undefined
  end.

(** [v.length] for a value without a name that is neither [undefined] nor
    [null]. *)
Definition nameless_length (v : nameless) : value :=
  match v with
  | Plain p => prim_length p
  | ThePrototype => undefined
  end.

(** [String(v)] *)
Definition nameless_to_string (v : nameless) : string :=
  to_property_key (nameless_to_value v).

(** [f(args)]: only a function can be called, and [Object.prototype] is
    none. *)
Definition call_value (f : value) (args : list value) : comp value :=
  match f with
  | VFun id _ => call rt id args
  | VMember MProto => throw TypeError
  | VMember m => lift (native rt m args)
  | _ => throw TypeError
  end.

Definition set_lastIndex (loc i : nat) (st : store W) : store W :=
  {| lastIndex := fun l => if l =? loc then i else lastIndex st l;
     world := world st |}.

(** [r.test(s)]: with the global or the sticky flag the search starts at
    [lastIndex], which is then moved to the end of the match or back to 0. *)
Definition regexp_test (r : RegExp) (s : string) : comp value :=
  fun st =>
    let u := Regex.code_units s in
    if re_global r || re_sticky r then
      let i := lastIndex st (re_loc r) in
      if List.length u <? i then (Ret (vbool false), set_lastIndex (re_loc r) 0 st)
      else
        match (if re_sticky r then Regex.match_at (re_source r) u i
               else Regex.search_from (re_source r) u i (List.length u - i)) with
        | Some e => (Ret (vbool true), set_lastIndex (re_loc r) e st)
        | None => (Ret (vbool false), set_lastIndex (re_loc r) 0 st)
        end
    else (Ret (vbool (Regex.test (re_source r) s)), st).

(** [recv.test(x)] *)
Definition method_test (recv : value) (x : nameless) : comp value :=
  match recv with
  | VRegExp r => regexp_test r (nameless_to_string x)
  | VObj props => call_value (prop props "test") [nameless_to_value x]
  | _ => throw TypeError
  end.

(** [recv.includes(x)] for an array, a string, or an object with a method
    of that name. *)
Definition method_includes (recv : value) (x : nameless) : comp value :=
  match recv with
  | VArr elems => ret (vbool (existsb (nameless_eq x) elems))
  | VPrim (PStr s) => ret (vbool (string_includes s (nameless_to_string x)))
  | VObj props => call_value (prop props "includes") [nameless_to_value x]
  | _ => throw TypeError
  end.

Definition param0 (constraintParams : value) : comp value :=
  lift (get_index constraintParams 0).

Definition not_ (c : comp value) : comp value :=
  r <- c ;; ret (vbool (negb (truthy r))).

(** The [validator] and [validate] cases, the same in both branches. *)
Definition case_validator (fieldValue : fieldValue) (constraintParams : value)
  (data : dataRecord) : comp value :=
  call_value constraintParams [field_to_value fieldValue; data_to_value data].

Definition case_validate (fieldValue : fieldValue) (constraintParams : value)
  (data : dataRecord) : comp value :=
  len <- lift (get_length constraintParams) ;;
  if strict_eq_prim (PNum 3) len then
    f <- lift (get_index constraintParams 0) ;;
    p1 <- lift (get_index constraintParams 1) ;;
    call_value f [field_to_value fieldValue; p1; data_to_value data]
  else
    f <- lift (get_index constraintParams 0) ;;
    call_value f [field_to_value fieldValue; data_to_value data].

(** The cases of the first [switch] (lines 11-45): a field value with a
    [name], whose [size] and [type] are what the value has under these
    names. *)
Definition file_cases (fieldValue : fieldValue) (name : string) (size type : prim)
  (constraintParams : value) (data : dataRecord) : list (string * comp value) :=
  let ext := Plain (PStr (extension name)) in
  [ ("required", ret (vbool (truthy_prim (PStr name))));
    ("ext", p0 <- param0 constraintParams ;; ret (vbool (nameless_eq ext p0)));
    ("extAllowed", p0 <- param0 constraintParams ;; method_includes p0 ext);
    ("extNotAllowed", not_ (p0 <- param0 constraintParams ;; method_includes p0 ext));
    ("sizeEqual", p0 <- param0 constraintParams ;; ret (vbool (strict_eq_prim size p0)));
    ("sizeNotEqual", p0 <- param0 constraintParams ;; ret (vbool (negb (strict_eq_prim size p0))));
    ("sizeGt", p0 <- param0 constraintParams ;; ret (vbool (js_gt (VPrim size) p0)));
    ("sizeGte", p0 <- param0 constraintParams ;; ret (vbool (js_ge (VPrim size) p0)));
    ("sizeLt", p0 <- param0 constraintParams ;; ret (vbool (js_lt (VPrim size) p0)));
    ("sizeLte", p0 <- param0 constraintParams ;; ret (vbool (js_le (VPrim size) p0)));
    ("type", p0 <- param0 constraintParams ;; ret (vbool (strict_eq_prim type p0)));
    ("typeIn", p0 <- param0 constraintParams ;; method_includes p0 (Plain type));
    ("typeNotIn", not_ (p0 <- param0 constraintParams ;; method_includes p0 (Plain type)));
    ("validator", case_validator fieldValue constraintParams data);
    ("validate", case_validate fieldValue constraintParams data) ].

(** The [pattern] case (lines 86-99).  A name that the registry does not
    own but inherits finds a member of [Object.prototype], which is truthy
    and has no [test]. *)
Definition case_pattern (v : nameless) (constraintParams : value) : comp value :=
  p0 <- param0 constraintParams ;;
  match obj_get Patterns.patterns (to_property_key p0) with
  | Some re =>
      if strict_eq_prim (PNum 0) (nameless_length v) then ret (vbool true)
      else ret (vbool (Regex.test re (nameless_to_string v)))
  | None =>
      if inherited (to_property_key p0) then
        if strict_eq_prim (PNum 0) (nameless_length v) then ret (vbool true)
        else throw TypeError
      else ret (vbool false)
  end.

(** The cases of the second [switch] (lines 51-109): a field value without
    a [name]. *)
Definition scalar_cases (v : nameless) (constraintParams : value) (data : dataRecord)
  : list (string * comp value) :=
  let other p0 := data_get data (to_property_key p0) in
  let fieldValue := nameless_to_value v in
  [ ("required", ret (vbool (truthy_nameless v)));
    ("min", p0 <- param0 constraintParams ;; ret (vbool (js_ge (nameless_length v) p0)));
    ("max", p0 <- param0 constraintParams ;; ret (vbool (js_le (nameless_length v) p0)));
    ("equalField", p0 <- param0 constraintParams ;; ret (vbool (nameless_eq_field v (other p0))));
    ("notEqualField", p0 <- param0 constraintParams ;; ret (vbool (negb (nameless_eq_field v (other p0)))));
    ("equal", p0 <- param0 constraintParams ;; ret (vbool (nameless_eq v p0)));
    ("notEqual", p0 <- param0 constraintParams ;; ret (vbool (negb (nameless_eq v p0))));
    ("gt", p0 <- param0 constraintParams ;; ret (vbool (js_gt fieldValue p0)));
    ("gte", p0 <- param0 constraintParams ;; ret (vbool (js_ge fieldValue p0)));
    ("lt", p0 <- param0 constraintParams ;; ret (vbool (js_lt fieldValue p0)));
    ("lte", p0 <- param0 constraintParams ;; ret (vbool (js_le fieldValue p0)));
    ("gtField", p0 <- param0 constraintParams ;; ret (vbool (js_gt fieldValue (field_to_value (other p0)))));
    ("gteField", p0 <- param0 constraintParams ;; ret (vbool (js_ge fieldValue (field_to_value (other p0)))));
    ("ltField", p0 <- param0 constraintParams ;; ret (vbool (js_lt fieldValue (field_to_value (other p0)))));
    ("lteField", p0 <- param0 constraintParams ;; ret (vbool (js_le fieldValue (field_to_value (other p0)))));
    ("in", p0 <- param0 constraintParams ;; method_includes p0 v);
    ("notIn", not_ (p0 <- param0 constraintParams ;; method_includes p0 v));
    ("pattern", case_pattern v constraintParams);
    ("regexp", p0 <- param0 constraintParams ;; method_test p0 v);
    ("validator", case_validator (nameless_to_field v) constraintParams data);
    ("validate", case_validate (nameless_to_field v) constraintParams data) ].

(** [checkConstraint] (lines 8-114).  Reading [fieldValue.name] throws on
    [undefined] and [null]; a file descriptor has a name and so has a
    function, a member of [Object.prototype] that has neither [size] nor
    [type]; a scalar has none and neither has [Object.prototype].  The
    [default] of either [switch] returns the object [new Error()]. *)
Definition checkConstraint (constraintName : string) (fieldValue : fieldValue)
  (constraintParams : value) (data : dataRecord) : comp value :=
  match fieldValue with
  | Scalar PUndefined | Scalar PNull => throw TypeError
  | File name size type =>
      switch constraintName
        (file_cases fieldValue name (PNum size) (PStr type) constraintParams data)
        (ret VError)
  | Member MProto =>
      switch constraintName (scalar_cases ThePrototype constraintParams data) (ret VError)
  | Member m =>
      switch constraintName
        (file_cases fieldValue (member_name m) PUndefined PUndefined constraintParams data)
        (ret VError)
  | Scalar v =>
      switch constraintName (scalar_cases (Plain v) constraintParams data) (ret VError)
  end.

(** The message a failing ordinary constraint declares (line 123). *)
Definition declared_message (constraintParams : value) : value :=
  match constraintParams with
  | VArr elems => nth (List.length elems - 1) elems undefined
  | _ => constraintParams
  end.

(** The local [message] of the loop body (lines 121-126). *)
Definition derive_message (constraintName : string) (constraintParams isValidated : value)
  : value :=
  if negb (String.eqb constraintName "validator") && negb (truthy isValidated)
  then declared_message constraintParams
  else if truthy isValidated && String.eqb constraintName "validator"
  then isValidated
  else undefined.

(** Lines 129-133.  When the report has no list of its own under
    [fieldName], [errors[fieldName]] still finds the member of
    [Object.prototype] of that name, when there is one: it is truthy and
    has no [push], and the call throws. *)
Definition push_message (errors : errorReport) (fieldName : string) (message : value)
  : outcome errorReport :=
  match obj_get errors fieldName with
  | Some msgs => Ret (obj_set errors fieldName (msgs ++ [message]))
  | None =>
      if inherited fieldName then Throw TypeError
      else Ret (obj_set errors fieldName [message])
  end.

(** The body of the loop of [checkConstraints] (lines 120-134). *)
Definition check_step (fieldName : string) (data : dataRecord) (errors : errorReport)
  (entry : string * value) : comp errorReport :=
  let (constraintName, constraintParams) := entry in
  isValidated <- checkConstraint constraintName (data_get data fieldName) constraintParams data ;;
  let message := derive_message constraintName constraintParams isValidated in
  if truthy message then lift (push_message errors fieldName message) else ret errors.

(** The guard of line 117. *)
Definition short_circuit (fieldName : string) (constraints : fieldRules) (data : dataRecord)
  : bool :=
  strict_eq_field (PStr "") (data_get data fieldName)
  && negb (keys_include (obj_keys constraints) "required").

(** [checkConstraints] (lines 116-138); [None] is the [null] of line 117. *)
Definition checkConstraints (fieldName : string) (constraints : fieldRules)
  (data : dataRecord) : comp (option errorReport) :=
  if short_circuit fieldName constraints data then ret None
  else
    errors <- for_of constraints (check_step fieldName data) [] ;;
    ret (Some errors).

(** [validateField] (lines 140-147).  For a name that the schema does not
    declare but inherits, [schema[fieldName]] is a member of
    [Object.prototype]: it is truthy and has no enumerable property of its
    own, so [checkConstraints] is called with no constraint at all. *)
Definition validateField (sch : schema) (fieldName : string) (data : dataRecord)
  : comp (option errorReport) :=
  match obj_get sch fieldName with
  | Some constraints => checkConstraints fieldName constraints data
  | None =>
      if inherited fieldName then checkConstraints fieldName [] data
      else ret (Some [])
  end.

(** [{ ...errors, ...r }] where [r] may be [null]. *)
Definition spread_result (errors : errorReport) (r : option errorReport) : errorReport :=
  match r with
  | Some e => obj_spread errors e
  | None => errors
  end.

(** The body of the loop of [validateForm] (line 152). *)
Definition form_step (data : dataRecord) (errors : errorReport)
  (entry : string * fieldRules) : comp errorReport :=
  let (fieldName, constraints) := entry in
  r <- checkConstraints fieldName constraints data ;;
  ret (spread_result errors r).

(** [validateForm] (lines 149-156). *)
Definition validateForm (sch : schema) (data : dataRecord) : comp errorReport :=
  for_of sch (form_step data) [].

End Engine.

(** The constraint names of the two [switch] statements. *)
Definition file_vocabulary : list string :=
  ["required"; "ext"; "extAllowed"; "extNotAllowed"; "sizeEqual"; "sizeNotEqual";
   "sizeGt"; "sizeGte"; "sizeLt"; "sizeLte"; "type"; "typeIn"; "typeNotIn";
   "validator"; "validate"].

Definition scalar_vocabulary : list string :=
  ["required"; "min"; "max"; "equalField"; "notEqualField"; "equal"; "notEqual";
   "gt"; "gte"; "lt"; "lte"; "gtField"; "gteField"; "ltField"; "lteField";
   "in"; "notIn"; "pattern"; "regexp"; "validator"; "validate"].

(** A field value on which [fieldValue.name] can be read. *)
Definition readable (fv : fieldValue) : bool :=
  match fv with
  | Scalar PUndefined | Scalar PNull => false
  | _ => true
  end.

(** A property name written with digits only.  The language enumerates
    the integer-like names of an object first, in ascending order, and the
    other names in the order in which they were added; every integer-like
    name is made of digits only. *)
Definition digits_only (k : string) : bool :=
  forallb (fun c => Regex.in_ranges [(48, 57)]%N (N_of_ascii c)) (list_ascii_of_string k).

Definition named_in_words (c : string * value) : bool := negb (digits_only (fst c)).

(** The empty string and the file descriptor with an empty name. *)
Definition empty_value (fv : fieldValue) : bool :=
  match fv with
  | Scalar (PStr s) => String.eqb s ""
  | File name _ _ => String.eqb name ""
  | _ => false
  end.

(** The vocabulary that applies to a field value. *)
Definition vocabulary (fv : fieldValue) : list string :=
  match fv with
  | File _ _ _ => file_vocabulary
  | Scalar _ | Member MProto => scalar_vocabulary
  | Member _ => file_vocabulary
  end.

(** The report that holds [msgs] for [fieldName], and nothing when there
    are none. *)
Definition report_of (fieldName : string) (msgs : list value) : errorReport :=
  match msgs with
  | [] => []
  | _ :: _ => [(fieldName, msgs)]
  end.

(** The entry of a field in what [validateField] returns. *)
Definition entry (r : option errorReport) (fieldName : string) : option (list value) :=
  match r with
  | Some e => obj_get e fieldName
  | None => None
  end.

(** ** A concrete runtime, store and callbacks for the examples *)

Module Sample.

(** The comparison of two numbers; the examples compare nothing else. *)
Definition arc_num (x y : value) : option bool :=
  match x, y with
  | VPrim (PNum a), VPrim (PNum b) => Some (a <? b)%Z
  | _, _ => None
  end.

Definition to_string_obj (v : value) : string := "[object Object]".

(** [checkPassword] of the documentation's [validator] example: a message
    for a password equal to the login, a message for a short password,
    [undefined] otherwise. *)
Definition checkPassword (args : list value) : value :=
  match args with
  | [VPrim (PStr fieldValue); VObj formData] =>
      if strict_eq_prim (PStr fieldValue) (prop formData "login")
      then vstr "Password is the same as login"
      else if String.length fieldValue <? 3 then vstr "Password is too short!"
      else undefined
  | _ => undefined
  end.

(** Function 0 is [checkPassword], function 1 is [() => true], function 2
    is [() => false]; any other identifier is a function that throws. *)
Definition callbacks (id : nat) (args : list value) : M (store unit) value :=
  match id with
  | 0 => ret (checkPassword args)
  | 1 => ret (vbool true)
  | 2 => ret (vbool false)
  | _ => throw (Raised (vstr "fault"))
  end.

(** The members of [Object.prototype] called without a receiver:
    [toString] names what it was called on, [Object] hands back the object
    it is given and wraps a primitive in an object (which has the code
    units of a string as its enumerable properties, and none otherwise),
    [isPrototypeOf] answers [false] for a primitive, and the others want a
    receiver. *)
Definition members_called (m : member) (args : list value) : outcome value :=
  match m, nth 0 args undefined with
  | MToString, _ => Ret (vstr "[object Undefined]")
  | MConstructor, VPrim PUndefined | MConstructor, VPrim PNull => Ret (VObj [])
  | MConstructor, VPrim (PStr s) =>
      Ret (VObj (map (fun ic => (string_of_nat (fst ic), vstr (String (snd ic) EmptyString)))
                   (combine (seq 0 (String.length s)) (list_ascii_of_string s))))
  | MConstructor, VPrim _ => Ret (VObj [])
  | MConstructor, x => Ret x
  | MIsPrototypeOf, VPrim _ => Ret (vbool false)
  | _, _ => Throw TypeError
  end.

Definition rt : env unit :=
  {| arc := arc_num; objToString := to_string_obj; call := callbacks;
     native := members_called |}.

Definition st0 : store unit := {| lastIndex := fun _ => 0; world := tt |}.

(** A validator that keeps count of its calls in the world and complains
    on every second one. *)
Definition moody (id : nat) (args : list value) : M (store nat) value :=
  fun st =>
    (Ret (if Nat.even (world st) then undefined else vstr "Try again"),
     {| lastIndex := lastIndex st; world := S (world st) |}).

Definition moody_rt : env nat :=
  {| arc := arc_num; objToString := to_string_obj; call := moody;
     native := members_called |}.

Definition moody_st0 : store nat := {| lastIndex := fun _ => 0; world := 0 |}.

(** [/a/g], the object number 7. *)
Definition re_a_global : RegExp :=
  {| re_loc := 7; re_source := Regex.Chr (Patterns.code "a");
     re_global := true; re_sticky := false |}.

(** [/^[0-9]+$/], without flags. *)
Definition re_digits : RegExp :=
  {| re_loc := 8;
     re_source := Regex.Seq Regex.Bol (Regex.Seq (Regex.Plus Regex.digit) Regex.Eol);
     re_global := false; re_sticky := false |}.

(** The schema of the documentation, with [checkPassword] as validator. *)
Definition login_schema : schema :=
  [("login", [("required", vstr "Field is required");
              ("min", VArr [vnum 4; vstr "Login must contain at least 4 characters"])]);
   ("password", [("required", vstr "Field is required"); ("validator", VFun 0 2)])].

Definition login_data : dataRecord :=
  [("login", Scalar (PStr "")); ("password", Scalar (PStr "ab"))].

(** [{ nick: { min: [4, 'Too short'] } }] and [{ nick: '' }] *)
Definition optional_schema : schema := [("nick", [("min", VArr [vnum 4; vstr "Too short"])])].
Definition optional_data : dataRecord := [("nick", Scalar (PStr ""))].

(** [{ login: { foo: 'msg' } }] and [{ login: 'x' }] *)
Definition unknown_schema : schema := [("login", [("foo", vstr "msg")])].
Definition unknown_data : dataRecord := [("login", Scalar (PStr "x"))].

(** [{ password: { validator: () => true } }] and [{ password: 'secret' }] *)
Definition true_schema : schema := [("password", [("validator", VFun 1 0)])].
Definition true_data : dataRecord := [("password", Scalar (PStr "secret"))].

(** [{ login: { required: '' } }] and [{ login: '' }] *)
Definition silent_schema : schema := [("login", [("required", vstr "")])].
Definition silent_data : dataRecord := [("login", Scalar (PStr ""))].

Definition zip_data : dataRecord := [("zip", Scalar (PStr "12345"))].

(** [{ n: { pattern: ['number', 'Not a number'] },
       i: { pattern: ['integer', 'Not an integer'] } }]
    and [{ n: '123', i: '12ab' }] *)
Definition numeric_schema : schema :=
  [("n", [("pattern", VArr [vstr "number"; vstr "Not a number"])]);
   ("i", [("pattern", VArr [vstr "integer"; vstr "Not an integer"])])].
Definition numeric_data : dataRecord :=
  [("n", Scalar (PStr "123")); ("i", Scalar (PStr "12ab"))].

(** [{ code: { regexp: [/a/g, 'bad'] } }] and [{ code: 'a' }] *)
Definition global_schema : schema :=
  [("code", [("regexp", VArr [VRegExp re_a_global; vstr "bad"])])].
Definition global_data : dataRecord := [("code", Scalar (PStr "a"))].

(** [{ code: { regexp: [/^[0-9]+$/, 'Digits only'] } }] and [{ code: '12a' }] *)
Definition digits_schema : schema :=
  [("code", [("regexp", VArr [VRegExp re_digits; vstr "Digits only"])])].
Definition digits_data : dataRecord := [("code", Scalar (PStr "12a"))].

End Sample.

(** ** The message list of a field, as the specification words it *)

Section Specification.

Variable W : Type.
Variable rt : env W.

(** What one constraint contributes, given what its evaluation returned:
    its message when there is one, nothing otherwise. *)
Definition contribution (constraintName : string) (constraintParams isValidated : value)
  : list value :=
  let message := derive_message constraintName constraintParams isValidated in
  if truthy message then [message] else [].

(** The contributions of the constraints of a field, evaluated and
    appended in declaration order. *)
Fixpoint messages_in_order (fieldValue : fieldValue) (data : dataRecord)
  (constraints : fieldRules) : comp W (list value) :=
  match constraints with
  | [] => ret []
  | (constraintName, constraintParams) :: rest =>
      isValidated <- checkConstraint rt constraintName fieldValue constraintParams data ;;
      msgs <- messages_in_order fieldValue data rest ;;
      ret (contribution constraintName constraintParams isValidated ++ msgs)
  end.

(** The constraints of a field under whose name a report cannot store a
    message: they are evaluated in declaration order as long as they have
    no message, and the first message is a [TypeError]. *)
Fixpoint messages_refused (fieldValue : fieldValue) (data : dataRecord)
  (constraints : fieldRules) : comp W (list value) :=
  match constraints with
  | [] => ret []
  | (constraintName, constraintParams) :: rest =>
      isValidated <- checkConstraint rt constraintName fieldValue constraintParams data ;;
      match contribution constraintName constraintParams isValidated with
      | [] => messages_refused fieldValue data rest
      | _ :: _ => throw TypeError
      end
  end.

(** What is collected for a field: its messages in declaration order,
    unless the field is named like a member of [Object.prototype]. *)
Definition collected (fieldName : string) (data : dataRecord) (constraints : fieldRules)
  : comp W (list value) :=
  if inherited fieldName then messages_refused (data_get data fieldName) data constraints
  else messages_in_order (data_get data fieldName) data constraints.

(** The message list of one field: none when the field is optional and its
    value is the empty string. *)
Definition field_messages (fieldName : string) (constraints : fieldRules)
  (data : dataRecord) : comp W (list value) :=
  if short_circuit fieldName constraints data then ret []
  else collected fieldName data constraints.

(** The message lists of the fields of a schema, in declaration order. *)
Fixpoint fields_in_order (data : dataRecord) (sch : schema)
  : comp W (list (string * list value)) :=
  match sch with
  | [] => ret []
  | (fieldName, constraints) :: rest =>
      msgs <- field_messages fieldName constraints data ;;
      others <- fields_in_order data rest ;;
      ret ((fieldName, msgs) :: others)
  end.

(** A field without messages is left out of the report. *)
Definition drop_empty (lists : list (string * list value)) : errorReport :=
  flat_map (fun e => report_of (fst e) (snd e)) lists.

End Specification.

(** A computation that returns the same outcome from every store and
    leaves the store as it found it. *)
Definition stateless {S A : Type} (c : M S A) : Prop :=
  exists o, forall st, c st = (o, st).

(** The caller's functions neither read nor write the store. *)
Definition pure_callbacks {W : Type} (rt : env W) : Prop :=
  forall id args, stateless (call rt id args).

(** The parameters of a constraint do not start with a regular expression
    that carries the global or the sticky flag. *)
Definition flagless (constraintParams : value) : bool :=
  match get_index constraintParams 0 with
  | Ret (VRegExp r) => negb (re_global r || re_sticky r)
  | _ => true
  end.

(** No [regexp] constraint of the field is given such a regular expression. *)
Definition flagless_rules (constraints : fieldRules) : bool :=
  forallb (fun c => negb (String.eqb (fst c) "regexp") || flagless (snd c)) constraints.

Definition flagless_schema (sch : schema) : bool :=
  forallb (fun f => flagless_rules (snd f)) sch.

(** Every message list of a report holds at least one message. *)
Definition nonempty_lists (r : errorReport) : Prop :=
  Forall (fun e => snd e <> []) r.

(** ** The hook around the engine (lines 158-215)

    The hook keeps two pieces of state, [errors] and [isValidated]; a
    handler ends by setting them, and a handler that throws sets nothing.
    What a handler reads from the page, the record made of the form's
    fields, is its argument [data]. *)
Record hook : Type := mkHook {
  hook_errors : errorReport;
  hook_isValidated : bool
}.

(** [delete o[k]] *)
Definition obj_delete {A : Type} (o : obj A) (k : string) : obj A :=
  filter (fun e => negb (String.eqb (fst e) k)) o.

(** What [handleSubmit] reads from its event: the own enumerable keys and
    the [preventDefault] found on it. *)
Record submitEvent : Type := mkSubmitEvent {
  own_keys : list string;
  preventDefault : value
}.

Section Hook.

Variable W : Type.
Variable rt : env W.
Variable sch : schema.

(** [onFieldUpdate] (lines 158-166), for the field named [e.target.name]:
    the field is validated first, then its entry is deleted from the
    current errors and the result is spread over what is left. *)
Definition onFieldUpdate (name : string) (data : dataRecord) (hs : hook) : comp W hook :=
  err <- validateField rt sch name data ;;
  let errs := obj_delete (hook_errors hs) name in
  ret {| hook_errors := spread_result errs err;
         hook_isValidated := hook_isValidated hs |}.

(** [handleSubmit] (lines 203-215).  The local [isErrorsOccured] holds
    when the report has no key. *)
Definition handleSubmit (e : submitEvent) (callback : value) (data : dataRecord)
  (hs : hook) : comp W hook :=
  _ <- (if 0 <? List.length (own_keys e) then call_value rt (preventDefault e) []
        else ret undefined) ;;
  err <- validateForm rt sch data ;;
  let isErrorsOccured := List.length (obj_keys err) =? 0 in
  _ <- (if isErrorsOccured then call_value rt callback [data_to_value data]
        else ret undefined) ;;
  ret {| hook_errors := err; hook_isValidated := isErrorsOccured |}.

(** The [keydown] listener of line 178 and the [reset] listener of lines
    181-184. *)
Definition onKeydown (hs : hook) : hook :=
  {| hook_errors := hook_errors hs; hook_isValidated := false |}.

Definition onReset (hs : hook) : hook :=
  {| hook_errors := []; hook_isValidated := false |}.

(** What can happen to the hook: the listeners above, a submission, and a
    call of the [setErrors] that the hook hands out. *)
Inductive hookEvent : Type :=
| Change (name : string) (data : dataRecord)
| Keydown
| FormReset
| Submit (e : submitEvent) (callback : value) (data : dataRecord)
| SetErrors (r : errorReport).

Definition handle (ev : hookEvent) (hs : hook) : comp W hook :=
  match ev with
  | Change name data => onFieldUpdate name data hs
  | Keydown => ret (onKeydown hs)
  | FormReset => ret (onReset hs)
  | Submit e callback data => handleSubmit e callback data hs
  | SetErrors r => ret {| hook_errors := r; hook_isValidated := hook_isValidated hs |}
  end.

(** One event: a handler that throws leaves the state as it was. *)
Definition dispatch (ev : hookEvent) (now : hook * store W) : hook * store W :=
  match handle ev (fst now) (snd now) with
  | (Ret hs', st') => (hs', st')
  | (Throw _, st') => (fst now, st')
  end.

Definition run_events (evs : list hookEvent) (now : hook * store W) : hook * store W :=
  fold_left (fun acc ev => dispatch ev acc) evs now.

End Hook.

(** The reports that [setErrors] is given hold no empty list. *)
Definition tidy_event (ev : hookEvent) : Prop :=
  match ev with
  | SetErrors r => nonempty_lists r
  | _ => True
  end.

(** No code unit of the string is a dot. *)
Definition dotless (s : string) : bool :=
  forallb (fun c => negb (Ascii.eqb c "."%char)) (list_ascii_of_string s).

(** The constraints that negate another one of the same [switch]. *)
Definition scalar_negations : list (string * string) :=
  [("equal", "notEqual"); ("equalField", "notEqualField"); ("in", "notIn")].

Definition file_negations : list (string * string) :=
  [("extAllowed", "extNotAllowed"); ("sizeEqual", "sizeNotEqual"); ("typeIn", "typeNotIn")].

(** * Properties *)

(** ** Objects and the monad *)

Section ObjectFacts.
Context {A : Type}.
Implicit Types (o : obj A) (k : string) (v : A).

Lemma obj_get_In o k v : obj_get o k = Some v -> In (k, v) o.
Proof.
  induction o as [|[k' v'] o IH]; simpl; [discriminate|].
  destruct (String.eqb k' k) eqn:E.
  - apply String.eqb_eq in E. intros [= ->]. subst. now left.
  - intros H. right. now apply IH.
Qed.

Lemma obj_get_set_other o k k' v : k <> k' -> obj_get (obj_set o k v) k' = obj_get o k'.
Proof.
  intros Hne. induction o as [|[k0 v0] o IH]; simpl.
  - apply String.eqb_neq in Hne. now rewrite Hne.
  - destruct (String.eqb k0 k) eqn:E; simpl.
    + apply String.eqb_eq in E. subst k0.
      apply String.eqb_neq in Hne. now rewrite Hne.
    + destruct (String.eqb k0 k'); [reflexivity|apply IH].
Qed.

Lemma obj_set_values (P : A -> Prop) o k v :
  P v -> Forall (fun e => P (snd e)) o -> Forall (fun e => P (snd e)) (obj_set o k v).
Proof.
  intros Hv. induction 1 as [|[k0 v0] o H0 H IH]; simpl.
  - now repeat constructor.
  - destruct (String.eqb k0 k); constructor; auto.
Qed.

Lemma keys_include_In (ks : list string) k : keys_include ks k = true <-> In k ks.
Proof.
  unfold keys_include. rewrite existsb_exists. split.
  - intros (x & Hx & E). apply String.eqb_eq in E. now subst.
  - intros H. exists k. split; [assumption|apply String.eqb_refl].
Qed.

End ObjectFacts.

Lemma switch_default (A : Type) (name : string) (cases : list (string * A)) (d : A) :
  ~ In name (map fst cases) -> switch name cases d = d.
Proof.
  induction cases as [|[label body] cases IH]; simpl; [reflexivity|].
  intros H. destruct (String.eqb name label) eqn:E.
  - apply String.eqb_eq in E. subst. exfalso. apply H. now left.
  - apply IH. tauto.
Qed.

(** ** The loop of [checkConstraints] *)

Section FieldLoop.

Variable W : Type.
Variable rt : env W.
Implicit Types (st : store W) (errors : errorReport) (msgs : list value).

Lemma push_message_report_of fieldName msgs message :
  inherited fieldName = false ->
  push_message (report_of fieldName msgs) fieldName message
  = Ret (report_of fieldName (msgs ++ [message])).
Proof.
  intros Hown. unfold push_message. destruct msgs as [|x xs]; simpl.
  - now rewrite Hown.
  - now rewrite String.eqb_refl.
Qed.

Lemma push_message_inherited fieldName message :
  inherited fieldName = true -> push_message [] fieldName message = Throw TypeError.
Proof.
  intros Hin. unfold push_message. simpl. now rewrite Hin.
Qed.

Lemma report_of_contribution fieldName msgs constraintName constraintParams isValidated st :
  inherited fieldName = false ->
  (let message := derive_message constraintName constraintParams isValidated in
   if truthy message then lift (push_message (report_of fieldName msgs) fieldName message)
   else ret (report_of fieldName msgs)) st
  = (Ret (report_of fieldName
            (msgs ++ contribution constraintName constraintParams isValidated)), st).
Proof.
  intros Hown. unfold contribution. cbv zeta.
  destruct (truthy (derive_message constraintName constraintParams isValidated)).
  - unfold lift. now rewrite push_message_report_of.
  - unfold ret. now rewrite app_nil_r.
Qed.

(** The loop, started on the report of the messages [pre], ends on the
    report of [pre] followed by the contributions in declaration order. *)
Lemma for_of_check_step fieldName data constraints :
  inherited fieldName = false ->
  forall pre st,
    for_of constraints (check_step rt fieldName data) (report_of fieldName pre) st
    = (msgs <- messages_in_order rt (data_get data fieldName) data constraints ;;
       ret (report_of fieldName (pre ++ msgs))) st.
Proof.
  intros Hown.
  induction constraints as [|[constraintName constraintParams] rest IH]; intros pre st.
  - simpl. unfold bind, ret. now rewrite app_nil_r.
  - simpl. unfold bind at 1 2 3 4. unfold check_step at 1. unfold bind at 1.
    destruct (checkConstraint rt constraintName (data_get data fieldName)
                constraintParams data st) as [[isValidated|e] st1]; [|reflexivity].
    rewrite report_of_contribution by exact Hown. rewrite IH.
    unfold bind. destruct (messages_in_order rt (data_get data fieldName) data rest st1)
      as [[msgs|e] st2]; [|reflexivity].
    unfold ret. now rewrite app_assoc.
Qed.

(** What is collected under an inherited name is the empty list, and so
    is then the list of the messages in declaration order. *)
Lemma messages_refused_Ret fieldValue data constraints :
  forall st msgs st',
    messages_refused rt fieldValue data constraints st = (Ret msgs, st') ->
    msgs = [] /\ messages_in_order rt fieldValue data constraints st = (Ret [], st').
Proof.
  induction constraints as [|[n p] rest IH]; intros st msgs st' H.
  - cbn in H. unfold ret in H. injection H as <- <-. now split.
  - cbn [messages_refused messages_in_order] in *. unfold bind in *.
    destruct (checkConstraint rt n fieldValue p data st) as [[iv|e] st1]; [|discriminate].
    destruct (contribution n p iv); [|discriminate].
    destruct (IH _ _ _ H) as [-> ->]. now split.
Qed.

(** Under an inherited name the report stays empty: the loop ends when no
    constraint has a message and throws at the first message. *)
Lemma for_of_check_step_inherited fieldName data constraints :
  inherited fieldName = true ->
  forall st,
    for_of constraints (check_step rt fieldName data) [] st
    = (msgs <- messages_refused rt (data_get data fieldName) data constraints ;;
       ret (report_of fieldName msgs)) st.
Proof.
  intros Hin.
  induction constraints as [|[constraintName constraintParams] rest IH]; intros st.
  - reflexivity.
  - cbn [for_of messages_refused]. unfold check_step at 1. unfold bind in *.
    destruct (checkConstraint rt constraintName (data_get data fieldName)
                constraintParams data st) as [[isValidated|e] st1]; [|reflexivity].
    unfold contribution. cbv zeta.
    destruct (truthy (derive_message constraintName constraintParams isValidated)).
    + unfold lift. rewrite push_message_inherited by exact Hin. reflexivity.
    + unfold ret at 1. apply IH.
Qed.

Lemma collected_Ret fieldName data constraints st msgs st' :
  collected rt fieldName data constraints st = (Ret msgs, st') ->
  messages_in_order rt (data_get data fieldName) data constraints st = (Ret msgs, st')
  /\ (inherited fieldName = true -> msgs = []).
Proof.
  unfold collected. destruct (inherited fieldName).
  - intros H. apply messages_refused_Ret in H. destruct H as [-> H]. now split.
  - intros H. now split.
Qed.

Lemma field_messages_Ret fieldName data constraints st msgs st' :
  field_messages rt fieldName constraints data st = (Ret msgs, st') ->
  if short_circuit fieldName constraints data then msgs = [] /\ st' = st
  else messages_in_order rt (data_get data fieldName) data constraints st = (Ret msgs, st').
Proof.
  unfold field_messages. destruct (short_circuit fieldName constraints data).
  - unfold ret. now intros [= <- <-].
  - intros H. now apply collected_Ret in H.
Qed.

End FieldLoop.

(** ** [checkConstraints], [validateField] and [validateForm] against the
    message lists in declaration order *)

Section Reports.

Variable W : Type.
Variable rt : env W.
Implicit Types (st : store W) (errors : errorReport) (msgs : list value).

Lemma checkConstraints_in_order fieldName constraints data st :
  checkConstraints rt fieldName constraints data st
  = (if short_circuit fieldName constraints data then ret None
     else msgs <- collected rt fieldName data constraints ;;
          ret (Some (report_of fieldName msgs))) st.
Proof.
  unfold checkConstraints. destruct (short_circuit fieldName constraints data); [reflexivity|].
  unfold bind at 1. unfold collected. destruct (inherited fieldName) eqn:Hin.
  - rewrite for_of_check_step_inherited by exact Hin. unfold bind, ret.
    now destruct (messages_refused rt (data_get data fieldName) data constraints st)
      as [[msgs|e] st1].
  - change (@nil (string * list value)) with (report_of fieldName []).
    rewrite for_of_check_step by exact Hin. unfold bind, ret.
    now destruct (messages_in_order rt (data_get data fieldName) data constraints st)
      as [[msgs|e] st1].
Qed.

(** What [checkConstraints] returns when it returns. *)
Lemma checkConstraints_Ret fieldName constraints data st res st' :
  checkConstraints rt fieldName constraints data st = (Ret res, st') ->
  exists msgs,
    field_messages rt fieldName constraints data st = (Ret msgs, st')
    /\ entry res fieldName = entry (Some (report_of fieldName msgs)) fieldName
    /\ spread_result [] res = report_of fieldName msgs.
Proof.
  rewrite checkConstraints_in_order. unfold field_messages.
  destruct (short_circuit fieldName constraints data).
  - unfold ret. intros [= <- <-]. exists []. now repeat split.
  - unfold bind, ret.
    destruct (collected rt fieldName data constraints st)
      as [[msgs|e] st1]; [|discriminate].
    intros [= <- <-]. exists msgs. repeat split.
    simpl. unfold obj_spread. destruct msgs; reflexivity.
Qed.

Lemma obj_set_fresh (A : Type) (o : obj A) k v :
  obj_get o k = None -> obj_set o k v = o ++ [(k, v)].
Proof.
  induction o as [|[k' v'] o IH]; simpl; [reflexivity|].
  destruct (String.eqb k' k); [discriminate|]. intros H. now rewrite IH.
Qed.

Lemma spread_report_of errors fieldName msgs :
  obj_get errors fieldName = None ->
  obj_spread errors (report_of fieldName msgs) = errors ++ report_of fieldName msgs.
Proof.
  intros H. destruct msgs; simpl.
  - now rewrite app_nil_r.
  - unfold obj_spread. simpl. now apply obj_set_fresh.
Qed.

Lemma form_step_in_order data errors fieldName constraints st :
  form_step rt data errors (fieldName, constraints) st
  = (msgs <- field_messages rt fieldName constraints data ;;
     ret (obj_spread errors (report_of fieldName msgs))) st.
Proof.
  unfold form_step. unfold bind at 1. rewrite checkConstraints_in_order.
  unfold field_messages, bind.
  destruct (short_circuit fieldName constraints data).
  - reflexivity.
  - unfold ret.
    now destruct (collected rt fieldName data constraints st) as [[msgs|e] st1].
Qed.

Lemma obj_get_app_None (A : Type) (o1 o2 : obj A) k :
  obj_get o1 k = None -> obj_get (o1 ++ o2) k = obj_get o2 k.
Proof.
  induction o1 as [|[k' v'] o1 IH]; simpl; [reflexivity|].
  destruct (String.eqb k' k); [discriminate|assumption].
Qed.

Lemma obj_get_report_of_other fieldName msgs k :
  fieldName <> k -> obj_get (report_of fieldName msgs) k = None.
Proof.
  intros H. destruct msgs; simpl; [reflexivity|].
  apply String.eqb_neq in H. now rewrite H.
Qed.

(** The loop of [validateForm] over a schema without repeated field names. *)
Lemma for_of_form_step data sch :
  NoDup (obj_keys sch) ->
  forall errors st,
    (forall k, In k (obj_keys sch) -> obj_get errors k = None) ->
    for_of sch (form_step rt data) errors st
    = (lists <- fields_in_order rt data sch ;; ret (errors ++ drop_empty lists)) st.
Proof.
  induction sch as [|[fieldName constraints] rest IH]; intros ND errors st Hfresh.
  - simpl. unfold bind, ret. now rewrite app_nil_r.
  - inversion ND as [|? ? Hnotin ND']; subst.
    cbn [for_of fields_in_order]. unfold bind at 1. rewrite form_step_in_order.
    unfold bind at 1 2 3.
    destruct (field_messages rt fieldName constraints data st) as [[msgs|e] st1];
      [|reflexivity].
    unfold ret at 1. rewrite spread_report_of by (apply Hfresh; now left).
    rewrite IH; trivial.
    + unfold bind, ret.
      destruct (fields_in_order rt data rest st1) as [[lists|e] st2]; [|reflexivity].
      simpl. now rewrite app_assoc.
    + intros k Hk. rewrite obj_get_app_None by (apply Hfresh; now right).
      apply obj_get_report_of_other. intros ->. contradiction.
Qed.

Lemma validateForm_in_order data sch st :
  NoDup (obj_keys sch) ->
  validateForm rt sch data st
  = (lists <- fields_in_order rt data sch ;; ret (drop_empty lists)) st.
Proof.
  intros ND. unfold validateForm. now rewrite for_of_form_step.
Qed.

End Reports.

(** ** Invariants of the loop of [validateForm] *)

Section FormLoop.

Variable W : Type.
Variable rt : env W.
Implicit Types (st : store W) (errors : errorReport) (msgs : list value).

Lemma nonempty_report_of fieldName msgs : nonempty_lists (report_of fieldName msgs).
Proof.
  destruct msgs; simpl; repeat constructor. discriminate.
Qed.

Lemma nonempty_spread errors fieldName msgs :
  nonempty_lists errors -> nonempty_lists (obj_spread errors (report_of fieldName msgs)).
Proof.
  intros H. destruct msgs as [|x xs]; [exact H|].
  unfold obj_spread. simpl.
  apply (obj_set_values (fun l => l <> [])); [discriminate|exact H].
Qed.

Lemma obj_get_spread_other errors fieldName msgs k :
  fieldName <> k ->
  obj_get (obj_spread errors (report_of fieldName msgs)) k = obj_get errors k.
Proof.
  intros H. destruct msgs as [|x xs]; [reflexivity|].
  unfold obj_spread. simpl. now apply obj_get_set_other.
Qed.

(** A step of the loop of [validateForm] that returns. *)
Lemma form_step_Ret data errors fieldName constraints st r st' :
  form_step rt data errors (fieldName, constraints) st = (Ret r, st') ->
  exists msgs,
    field_messages rt fieldName constraints data st = (Ret msgs, st')
    /\ r = obj_spread errors (report_of fieldName msgs).
Proof.
  rewrite form_step_in_order. unfold bind, ret.
  destruct (field_messages rt fieldName constraints data st) as [[msgs|e] st1];
    [|discriminate].
  intros [= <- <-]. now exists msgs.
Qed.

(** An invariant of the report that every step keeps holds at the end. *)
Lemma form_loop_invariant (P : errorReport -> Prop) data sch :
  (forall errors fieldName constraints msgs,
      In (fieldName, constraints) sch ->
      (short_circuit fieldName constraints data = true -> msgs = []) ->
      P errors -> P (obj_spread errors (report_of fieldName msgs))) ->
  forall errors st r st',
    P errors -> for_of sch (form_step rt data) errors st = (Ret r, st') -> P r.
Proof.
  induction sch as [|[fieldName constraints] rest IH]; intros Hstep errors st r st' HP.
  - simpl. unfold ret. now intros [= <- <-].
  - cbn [for_of]. unfold bind.
    destruct (form_step rt data errors (fieldName, constraints) st) as [[errors1|e] st1] eqn:E;
      [|discriminate].
    apply form_step_Ret in E. destruct E as (msgs & Hm & ->).
    apply IH.
    + intros errors0 f c m Hin. apply (Hstep errors0 f c m). now right.
    + apply (Hstep errors fieldName constraints msgs); [now left| |exact HP].
      unfold field_messages in Hm. intros Hsc. rewrite Hsc in Hm.
      unfold ret in Hm. now injection Hm as <- _.
Qed.

End FormLoop.

(** ** The registry's [number] and [integer] on arbitrary strings *)

Section RegistryFacts.
Import Regex.

Lemma chr_mem (c d : cu) : class_mem false [(c, c)] d = (d =? c)%N.
Proof.
  unfold class_mem, in_ranges. simpl. rewrite orb_false_r.
  destruct (N.eqb_spec d c) as [->|Hne].
  - now rewrite N.leb_refl.
  - destruct (N.leb_spec c d), (N.leb_spec d c); simpl; trivial. lia.
Qed.

(** A literal character does not match in an input that lacks it. *)
Lemma m_Chr_absent (c : cu) (k : cont) (i : nat) (s : list cu) :
  ~ In c s -> m (Chr c) k i s = None.
Proof.
  intros H. destruct s as [|d s']; unfold Chr; cbn [m]; [reflexivity|].
  rewrite chr_mem.
  destruct (N.eqb_spec d c) as [->|_]; [|reflexivity].
  exfalso. apply H. now left.
Qed.

Lemma search_from_None (r : regex) (s : list cu) :
  (forall i, match_at r s i = None) ->
  forall tries i, search_from r s i tries = None.
Proof.
  intros H. induction tries as [|tries IH]; intros i; simpl; rewrite H; auto.
Qed.

Lemma Some_neq_None (A : Type) (a : A) : Some a <> None.
Proof. discriminate. Qed.

Lemma In_skipn (A : Type) (x : A) (n : nat) (l : list A) : In x (skipn n l) -> In x l.
Proof.
  revert l. induction n as [|n IH]; intros l; simpl; [trivial|].
  destruct l as [|y l]; [trivial|]. intros H. right. now apply IH.
Qed.

(** An optional character followed by a literal one does not match in an
    input that lacks the literal one, whatever comes after. *)
Lemma m_Opt_Chr_absent (d c : cu) (rest : regex) (k : cont) (i : nat) (s : list cu) :
  ~ In c s -> m (Seq (Opt (Chr d)) (Seq (Chr c) rest)) k i s = None.
Proof.
  intros H.
  change (m (Seq (Opt (Chr d)) (Seq (Chr c) rest)) k i s)
    with (match m (Chr d) (m (Seq (Chr c) rest) k) i s with
          | Some e => Some e
          | None => m (Chr c) (m rest k) i s
          end).
  rewrite (@m_Chr_absent c (m rest k) i s H).
  destruct s as [|x s']; [reflexivity|].
  unfold Chr at 1. cbn [m]. destruct (class_mem false [(d, d)] x); [|reflexivity].
  change (m (Seq (Chr c) rest) k (S i) s') with (m (Chr c) (m rest k) (S i) s').
  rewrite m_Chr_absent; [reflexivity|]. intros Hin. apply H. now right.
Qed.

(** [/-?\\d*(\\.\\d+)?$/] matches nowhere in a string without a backslash. *)
Lemma number_needs_backslash (s : string) :
  ~ In (Patterns.code "\") (code_units s) -> test Patterns.number s = false.
Proof.
  intros H. unfold test. rewrite search_from_None; [reflexivity|].
  intros i. unfold match_at, Patterns.number. apply m_Opt_Chr_absent.
  intros Hin. apply H. now apply In_skipn in Hin.
Qed.

(** A greedy star under a continuation that always succeeds succeeds. *)
Lemma star_loop_succeeds (mr : cont -> cont) (k : cont) :
  (forall j u, k j u <> None) -> forall fuel i s, star_loop mr k fuel i s <> None.
Proof.
  intros Hk. induction fuel as [|fuel IH]; intros i s; cbn [star_loop]; [apply Hk|].
  destruct (mr _ i s); [discriminate|apply Hk].
Qed.

(** An expression anchored at the start matches at index 0 or nowhere. *)
Lemma search_from_Bol_later (r : regex) (s : list cu) :
  forall tries i, search_from (Seq Bol r) s (S i) tries = None.
Proof.
  induction tries as [|tries IH]; intros i; cbn [search_from]; unfold match_at; cbn [m Nat.eqb];
    [reflexivity|apply IH].
Qed.

Lemma search_from_Bol (r : regex) (s : list cu) (tries : nat) :
  search_from (Seq Bol r) s 0 tries = m r (fun e _ => Some e) 0 s.
Proof.
  destruct tries as [|tries]; cbn [search_from]; unfold match_at; cbn [m Nat.eqb skipn];
    destruct (m r _ 0 s); trivial. apply search_from_Bol_later.
Qed.

(** [/^[0-9]+/] accepts exactly the strings that start with a digit. *)
Lemma test_integer (s : string) :
  test Patterns.integer s
  = match s with
    | String c _ => in_ranges [(48, 57)]%N (N_of_ascii c)
    | EmptyString => false
    end.
Proof.
  unfold test, Patterns.integer. rewrite search_from_Bol.
  destruct s as [|c s]; [reflexivity|].
  unfold code_units, Plus, digit. cbn [list_ascii_of_string map m].
  unfold class_mem at 1. cbn [xorb].
  destruct (in_ranges [(48, 57)]%N (N_of_ascii c)); [|reflexivity].
  match goal with
  | |- match star_loop ?mr ?k ?fuel ?i ?t with _ => _ end = _ =>
      pose proof (@star_loop_succeeds mr k (fun j u => @Some_neq_None nat j) fuel i t) as H;
      destruct (star_loop mr k fuel i t); [reflexivity|contradiction]
  end.
Qed.

(** A starred class up to the end of the input consumes the whole input
    or fails. *)
Lemma star_class_to_the_end (neg : bool) (ranges : list (cu * cu)) :
  forall fuel i s,
    length s <= fuel ->
    star_loop (m (Class neg ranges)) (m Eol (fun e _ => Some e)) fuel i s
    = if forallb (class_mem neg ranges) s then Some (i + length s) else None.
Proof.
  induction fuel as [|fuel IH]; intros i s Hlen.
  - destruct s; [|simpl in Hlen; lia]. cbn. now rewrite Nat.add_0_r.
  - cbn [star_loop]. destruct s as [|c s'].
    + cbn. now rewrite Nat.add_0_r.
    + cbn [m forallb length]. destruct (class_mem neg ranges c); [|reflexivity].
      replace (i <? S i) with true by (symmetry; apply Nat.ltb_lt; lia).
      rewrite IH by (simpl in Hlen; lia).
      destruct (forallb (class_mem neg ranges) s'); [|reflexivity].
      cbn [andb]. f_equal. lia.
Qed.

(** [alpha] accepts exactly the sequences without a listed character. *)
Lemma accepts_alpha (u : list cu) :
  accepts Patterns.alpha u
  = forallb (fun c => negb (in_ranges (singletons Patterns.alpha_blacklist) c)) u.
Proof.
  unfold accepts, Patterns.alpha. rewrite search_from_Bol.
  set (bl := singletons Patterns.alpha_blacklist).
  change (m (Seq (Star (Class true bl)) Eol) (fun e _ => Some e) 0 u)
    with (star_loop (m (Class true bl)) (m Eol (fun e _ => Some e)) (length u) 0 u).
  rewrite star_class_to_the_end by apply Nat.le_refl.
  unfold class_mem. cbn [xorb].
  now destruct (forallb _ u).
Qed.

Lemma test_alpha (s : string) :
  test Patterns.alpha s
  = forallb (fun c => negb (in_ranges (singletons Patterns.alpha_blacklist) c))
      (code_units s).
Proof. exact (accepts_alpha (code_units s)). Qed.

(** *** The matcher finds what [Matches] describes *)

Lemma star_loop_sound (mr : cont -> cont) (r : regex) :
  (forall k i s e, mr k i s = Some e ->
     exists p rest, s = p ++ rest /\ Matches r i p rest /\ k (i + length p) rest = Some e) ->
  forall k fuel i s e,
    star_loop mr k fuel i s = Some e ->
    exists p rest, s = p ++ rest /\ Matches (Star r) i p rest
                   /\ k (i + length p) rest = Some e.
Proof.
  intros Hmr k.
  assert (Hnil : forall i s e, k i s = Some e ->
            exists p rest, s = p ++ rest /\ Matches (Star r) i p rest
                           /\ k (i + length p) rest = Some e).
  { intros i s e H. exists [], s. cbn [length app]. rewrite Nat.add_0_r.
    repeat split; [constructor|exact H]. }
  induction fuel as [|fuel IH]; intros i s e; cbn [star_loop]; [apply Hnil|].
  destruct (mr _ i s) as [e0|] eqn:E; [|apply Hnil].
  intros [= ->]. apply Hmr in E. destruct E as (p1 & rest1 & -> & Hm1 & Hk).
  destruct (i <? i + length p1) eqn:Hlt; [|discriminate].
  apply Nat.ltb_lt in Hlt.
  apply IH in Hk. destruct Hk as (p2 & rest & -> & Hm2 & Hk).
  exists (p1 ++ p2), rest. rewrite length_app, Nat.add_assoc, app_assoc.
  repeat split; [|exact Hk]. constructor; trivial.
  intros ->. simpl in Hlt. lia.
Qed.

Lemma m_sound (r : regex) :
  forall k i s e,
    m r k i s = Some e ->
    exists p rest, s = p ++ rest /\ Matches r i p rest /\ k (i + length p) rest = Some e.
Proof.
  induction r as [|neg ranges|r1 IH1 r2 IH2|r1 IH1 r2 IH2|r IH| |]; intros k i s e; cbn [m].
  - intros H. exists [], s. cbn [length app]. rewrite Nat.add_0_r.
    repeat split; [constructor|exact H].
  - destruct s as [|c s']; [discriminate|].
    destruct (class_mem neg ranges c) eqn:E; [|discriminate].
    intros H. exists [c], s'. cbn [length app]. rewrite Nat.add_1_r.
    repeat split; [now constructor|exact H].
  - intros H. apply IH1 in H. destruct H as (p1 & rest1 & -> & Hm1 & H).
    apply IH2 in H. destruct H as (p2 & rest & -> & Hm2 & H).
    exists (p1 ++ p2), rest. rewrite length_app, Nat.add_assoc, app_assoc.
    repeat split; [|exact H]. now constructor.
  - destruct (m r1 k i s) as [e1|] eqn:E.
    + intros [= ->]. apply IH1 in E. destruct E as (p & rest & -> & Hm & H).
      exists p, rest. repeat split; [|exact H]. now apply MAltL.
    + intros H. apply IH2 in H. destruct H as (p & rest & -> & Hm & H).
      exists p, rest. repeat split; [|exact H]. now apply MAltR.
  - apply star_loop_sound. exact IH.
  - destruct i; [|discriminate]. intros H. exists [], s. repeat split; [constructor|exact H].
  - destruct s; [|discriminate]. intros H. exists [], []. cbn [length].
    rewrite Nat.add_0_r. repeat split; [constructor|exact H].
Qed.

Lemma m_complete (r : regex) (i : nat) (p rest : list cu) :
  Matches r i p rest ->
  forall k,
    k (i + length p) rest <> None ->
    m r k i (p ++ rest) <> None
    /\ match r with
       | Star r' =>
           forall fuel, length (p ++ rest) <= fuel ->
                        star_loop (m r') k fuel i (p ++ rest) <> None
       | _ => True
       end.
Proof.
  induction 1 as [i rest|neg ranges c i rest Hc|r1 r2 i p1 p2 rest _ IH1 _ IH2
                  |r1 r2 i p rest _ IH|r1 r2 i p rest _ IH|r i rest
                  |r i p1 p2 rest Hne _ IH1 _ IH2|rest|i];
    intros k Hk; cbn [length app] in *; rewrite ?Nat.add_0_r in Hk.
  - now split.
  - rewrite Nat.add_1_r in Hk. cbn [m]. rewrite Hc. now split.
  - split; [|trivial]. cbn [m]. rewrite <- app_assoc. apply IH1. apply IH2.
    now rewrite length_app, Nat.add_assoc in Hk.
  - split; [|trivial]. cbn [m]. destruct (m r1 k i (p ++ rest)) eqn:E; [discriminate|].
    exfalso. now apply (IH k Hk).
  - split; [|trivial]. cbn [m]. destruct (m r1 k i (p ++ rest)); [discriminate|].
    now apply IH.
  - assert (H : forall fuel, star_loop (m r) k fuel i rest <> None).
    { intros [|fuel]; cbn [star_loop]; [exact Hk|]. now destruct (m r _ i rest). }
    split; [apply H|intros fuel _; apply H].
  - assert (H : forall fuel, length ((p1 ++ p2) ++ rest) <= fuel ->
                  star_loop (m r) k fuel i ((p1 ++ p2) ++ rest) <> None).
    { intros fuel Hfuel. rewrite <- app_assoc in *. rewrite length_app in Hfuel.
      destruct p1 as [|c p1]; [contradiction|]. cbn [length] in *.
      destruct fuel as [|fuel]; [lia|]. cbn [star_loop].
      match goal with
      | |- match m r ?k' i ?s with _ => _ end <> None =>
          assert (Hm : m r k' i s <> None); [|now destruct (m r k' i s)]
      end.
      apply IH1.
      replace (i <? i + S (length p1)) with true by (symmetry; apply Nat.ltb_lt; lia).
      apply IH2; [|lia].
      now rewrite length_app, Nat.add_assoc in Hk. }
    split; [|exact H]. cbn [m]. now apply H.
  - now split.
  - now split.
Qed.

(** An expression after [^] is tested against a prefix of the input. *)
Lemma accepts_Bol (r : regex) (u : list cu) :
  accepts (Seq Bol r) u = true
  <-> exists p rest, u = p ++ rest /\ Matches r 0 p rest.
Proof.
  unfold accepts. rewrite search_from_Bol. split.
  - destruct (m r _ 0 u) as [e|] eqn:E; [intros _|discriminate].
    apply m_sound in E. destruct E as (p & rest & Hs & Hm & _). now exists p, rest.
  - intros (p & rest & -> & Hm).
    destruct (m_complete Hm (fun e _ => Some e)) as [H' _]; [discriminate|].
    now destruct (m r _ 0 (p ++ rest)).
Qed.

Lemma test_Bol (r : regex) (s : string) :
  test (Seq Bol r) s = true
  <-> exists p rest, code_units s = p ++ rest /\ Matches r 0 p rest.
Proof. exact (accepts_Bol r (code_units s)). Qed.

Lemma Matches_Chr (c : cu) (i : nat) (p rest : list cu) :
  Matches (Chr c) i p rest <-> p = [c].
Proof.
  split.
  - intros H. inversion H as [|neg ranges d i' rest' Hd| | | | | | |]; subst.
    rewrite chr_mem in Hd. apply N.eqb_eq in Hd. now subst.
  - intros ->. constructor. rewrite chr_mem. apply N.eqb_refl.
Qed.

Lemma Matches_Star_Class (neg : bool) (ranges : list (cu * cu)) (i : nat) (p rest : list cu) :
  Matches (Star (Class neg ranges)) i p rest <-> forallb (class_mem neg ranges) p = true.
Proof.
  split.
  - intros H. remember (Star (Class neg ranges)) as r eqn:Er.
    induction H as [| | | | | |r i p1 p2 rest Hne H1 _ H2 IH| |]; try discriminate.
    + reflexivity.
    + injection Er as ->. rewrite forallb_app, (IH eq_refl), andb_true_r.
      inversion H1; subst. cbn [forallb]. now rewrite andb_true_r.
  - revert i. induction p as [|c p IH]; intros i H; [constructor|].
    cbn [forallb] in H. apply andb_true_iff in H. destruct H as [Hc Hp].
    change (c :: p) with ([c] ++ p). constructor; [discriminate|now constructor|now apply IH].
Qed.

Lemma Matches_Plus_Class (neg : bool) (ranges : list (cu * cu)) (i : nat) (p rest : list cu) :
  Matches (Plus (Class neg ranges)) i p rest
  <-> p <> [] /\ forallb (class_mem neg ranges) p = true.
Proof.
  unfold Plus. split.
  - intros H. inversion H as [| |r1 r2 i' p1 p2 rest' H1 H2| | | | | |]; subst.
    inversion H1; subst. apply Matches_Star_Class in H2.
    split; [discriminate|]. cbn [app forallb]. now apply andb_true_iff.
  - intros [Hne H]. destruct p as [|c p]; [contradiction|].
    cbn [forallb] in H. apply andb_true_iff in H. destruct H as [Hc Hp].
    change (c :: p) with ([c] ++ p). constructor; [now constructor|].
    now apply Matches_Star_Class.
Qed.

(** [email] accepts exactly the sequences of the shape text[@]text[.]text. *)
Lemma accepts_email (u : list cu) :
  accepts Patterns.email u = true
  <-> exists a b c,
        u = a ++ [Patterns.code "@"] ++ b ++ [Patterns.code "."] ++ c
        /\ text a /\ text b /\ text c.
Proof.
  unfold Patterns.email. rewrite accepts_Bol. unfold text, non_space. split.
  - intros (p & rest & Hs & H).
    inversion H as [| |? ? ? a q1 ? Ha H1| | | | | |]; subst.
    inversion H1 as [| |? ? ? at_ q2 ? Hat H2| | | | | |]; subst.
    inversion H2 as [| |? ? ? b q3 ? Hb H3| | | | | |]; subst.
    inversion H3 as [| |? ? ? dot_ q4 ? Hdot H4| | | | | |]; subst.
    inversion H4 as [| |? ? ? c q5 ? Hc H5| | | | | |]; subst.
    inversion H5; subst.
    apply Matches_Chr in Hat, Hdot. subst.
    apply Matches_Plus_Class in Ha, Hb, Hc.
    exists a, b, c. rewrite !app_nil_r. now repeat split.
  - intros (a & b & c & Hs & Ha & Hb & Hc).
    exists (a ++ [Patterns.code "@"] ++ b ++ [Patterns.code "."] ++ c ++ []), [].
    split; [now rewrite !app_nil_r|].
    apply MSeq; [now apply Matches_Plus_Class|].
    apply MSeq; [now apply Matches_Chr|].
    apply MSeq; [now apply Matches_Plus_Class|].
    apply MSeq; [now apply Matches_Chr|].
    apply MSeq; [now apply Matches_Plus_Class|constructor].
Qed.

Lemma test_email (s : string) :
  test Patterns.email s = true
  <-> exists a b c,
        code_units s = a ++ [Patterns.code "@"] ++ b ++ [Patterns.code "."] ++ c
        /\ text a /\ text b /\ text c.
Proof. exact (accepts_email (code_units s)). Qed.

(** [double] accepts exactly digits, one code unit that is not a line
    terminator, and digits: the dot of the expression stands for any
    character. *)
Lemma test_double (s : string) :
  test Patterns.double s = true
  <-> exists a c b,
        code_units s = a ++ [c] ++ b
        /\ digits a /\ class_mem true line_terminators c = true /\ digits b.
Proof.
  unfold Patterns.double. rewrite test_Bol. unfold digits, digit, dot. split.
  - intros (p & rest & Hs & H).
    inversion H as [| |? ? ? a q1 ? Ha H1| | | | | |]; subst.
    inversion H1 as [| |? ? ? sep q2 ? Hsep H2| | | | | |]; subst.
    inversion H2 as [| |? ? ? b q3 ? Hb H3| | | | | |]; subst.
    inversion H3; subst. inversion Hsep as [|? ? c ? ? Hc| | | | | | |]; subst.
    apply Matches_Plus_Class in Ha, Hb.
    exists a, c, b. rewrite Hs, !app_nil_r. now repeat split.
  - intros (a & c & b & Hs & Ha & Hc & Hb).
    exists (a ++ [c] ++ b ++ []), []. split; [now rewrite !app_nil_r|].
    apply MSeq; [now apply Matches_Plus_Class|].
    apply MSeq; [now constructor|].
    apply MSeq; [now apply Matches_Plus_Class|constructor].
Qed.

End RegistryFacts.

(** ** Facts about single constraints *)

Section Constraints.

Variable W : Type.
Variable rt : env W.
Implicit Types (st : store W) (errors : errorReport) (msgs : list value).

Lemma file_cases_names fieldValue name size type constraintParams data :
  map fst (file_cases rt fieldValue name size type constraintParams data) = file_vocabulary.
Proof. reflexivity. Qed.

Lemma scalar_cases_names v constraintParams data :
  map fst (scalar_cases rt v constraintParams data) = scalar_vocabulary.
Proof. reflexivity. Qed.

(** Outside the vocabulary of its branch, [checkConstraint] returns the
    [Error] object of the [default] case. *)
Lemma checkConstraint_unknown constraintName fieldValue constraintParams data st :
  readable fieldValue = true ->
  keys_include (vocabulary fieldValue) constraintName = false ->
  checkConstraint rt constraintName fieldValue constraintParams data st = (Ret VError, st).
Proof.
  intros Hr Hn.
  assert (Hnot : ~ In constraintName (vocabulary fieldValue)).
  { rewrite <- keys_include_In. now rewrite Hn. }
  destruct fieldValue as [v|name size type|m]; cbn [vocabulary readable] in *.
  - destruct v; try discriminate; unfold checkConstraint;
      (rewrite switch_default; [reflexivity|now rewrite scalar_cases_names]).
  - unfold checkConstraint.
    rewrite switch_default; [reflexivity|now rewrite file_cases_names].
  - destruct m; unfold checkConstraint;
      (rewrite switch_default;
       [reflexivity|rewrite ?scalar_cases_names, ?file_cases_names; exact Hnot]).
Qed.

Lemma contribution_Error constraintName constraintParams :
  constraintName <> "validator" -> contribution constraintName constraintParams VError = [].
Proof.
  intros H. apply String.eqb_neq in H.
  unfold contribution, derive_message. rewrite H. reflexivity.
Qed.

Lemma validator_in_vocabulary fieldValue :
  keys_include (vocabulary fieldValue) "validator" = true.
Proof. destruct fieldValue as [v|name size type|m]; [reflexivity|reflexivity|now destruct m]. Qed.

Lemma required_on_empty fieldValue constraintParams data st :
  empty_value fieldValue = true ->
  checkConstraint rt "required" fieldValue constraintParams data st = (Ret (vbool false), st).
Proof.
  destruct fieldValue as [[| | | |s]|name size type|m]; cbn [empty_value];
    try discriminate; intros E; apply String.eqb_eq in E; subst; reflexivity.
Qed.

Lemma contribution_failed constraintName constraintParams :
  constraintName <> "validator" ->
  contribution constraintName constraintParams (vbool false)
  = if truthy (declared_message constraintParams) then [declared_message constraintParams]
    else [].
Proof.
  intros H. apply String.eqb_neq in H.
  unfold contribution, derive_message. rewrite H. reflexivity.
Qed.

(** A message is truthy. *)
Lemma contribution_truthy constraintName constraintParams isValidated :
  Forall (fun message => truthy message = true)
    (contribution constraintName constraintParams isValidated).
Proof.
  unfold contribution. cbv zeta.
  destruct (truthy (derive_message constraintName constraintParams isValidated)) eqn:E;
    repeat constructor. exact E.
Qed.

Lemma messages_in_order_truthy fieldValue data constraints :
  forall st msgs st',
    messages_in_order rt fieldValue data constraints st = (Ret msgs, st') ->
    Forall (fun message => truthy message = true) msgs.
Proof.
  induction constraints as [|[n p] rest IH]; intros st msgs st' H.
  - cbn in H. unfold ret in H. injection H as <- _. constructor.
  - cbn [messages_in_order] in H. unfold bind in H.
    destruct (checkConstraint rt n fieldValue p data st) as [[iv|e] st1]; [|discriminate].
    destruct (messages_in_order rt fieldValue data rest st1) as [[ms|e] st2] eqn:E2;
      [|discriminate].
    unfold ret in H. injection H as <- _. apply Forall_app. split.
    + apply contribution_truthy.
    + exact (IH _ _ _ E2).
Qed.

(** What [validateField] returns when it returns: [null] for a skipped
    field, and else the report of the messages in declaration order, of
    which there are none under an undeclared or an inherited name. *)
Lemma validateField_Ret sch fieldName data st res st' :
  validateField rt sch fieldName data st = (Ret res, st') ->
  (res = None /\ st' = st)
  \/ exists constraints msgs,
       messages_in_order rt (data_get data fieldName) data constraints st = (Ret msgs, st')
       /\ res = Some (report_of fieldName msgs)
       /\ (inherited fieldName = true -> msgs = [])
       /\ match obj_get sch fieldName with
          | Some declared => constraints = declared
          | None => constraints = []
          end.
Proof.
  assert (Hcheck : forall constraints,
             checkConstraints rt fieldName constraints data st = (Ret res, st') ->
             (res = None /\ st' = st)
             \/ exists msgs,
                  messages_in_order rt (data_get data fieldName) data constraints st
                  = (Ret msgs, st')
                  /\ res = Some (report_of fieldName msgs)
                  /\ (inherited fieldName = true -> msgs = [])).
  { intros constraints. rewrite checkConstraints_in_order.
    destruct (short_circuit fieldName constraints data).
    - unfold ret. intros [= <- <-]. now left.
    - unfold bind, ret.
      destruct (collected rt fieldName data constraints st) as [[msgs|e] st1] eqn:E;
        [|discriminate].
      intros [= <- <-]. right. exists msgs. apply collected_Ret in E. tauto. }
  unfold validateField. destruct (obj_get sch fieldName) as [declared|].
  - intros H. destruct (Hcheck _ H) as [?|(msgs & ? & ? & ?)]; [now left|].
    right. now exists declared, msgs.
  - destruct (inherited fieldName).
    + intros H. destruct (Hcheck _ H) as [?|(msgs & ? & ? & ?)]; [now left|].
      right. now exists [], msgs.
    + unfold ret. intros [= <- <-]. right. exists [], []. now repeat split.
Qed.

(** Every constraint of the list was evaluated, and what it contributed is
    among the messages. *)
Lemma messages_in_order_In fieldValue data constraints :
  forall st msgs st',
    messages_in_order rt fieldValue data constraints st = (Ret msgs, st') ->
    forall constraintName constraintParams,
      In (constraintName, constraintParams) constraints ->
      exists st1 st2 isValidated,
        checkConstraint rt constraintName fieldValue constraintParams data st1
        = (Ret isValidated, st2)
        /\ incl (contribution constraintName constraintParams isValidated) msgs.
Proof.
  induction constraints as [|[n p] rest IH]; intros st msgs st' H name params Hin.
  - destruct Hin.
  - cbn [messages_in_order] in H. unfold bind in H.
    destruct (checkConstraint rt n fieldValue p data st) as [[iv|e] st1] eqn:E1;
      [|discriminate].
    destruct (messages_in_order rt fieldValue data rest st1) as [[ms|e] st2] eqn:E2;
      [|discriminate].
    unfold ret in H. injection H as <- <-.
    destruct Hin as [[= -> ->]|Hin].
    + exists st, st1, iv. split; [exact E1|]. apply incl_appl, incl_refl.
    + destruct (IH _ _ _ E2 _ _ Hin) as (s1 & s2 & iv' & Hc & Hi).
      exists s1, s2, iv'. split; [exact Hc|]. now apply incl_appr.
Qed.

(** The message lists of the fields: one per declared field. *)
Lemma fields_in_order_In data sch :
  forall st lists st',
    fields_in_order rt data sch st = (Ret lists, st') ->
    map fst lists = obj_keys sch
    /\ forall fieldName constraints,
        In (fieldName, constraints) sch ->
        exists st1 st2 msgs,
          field_messages rt fieldName constraints data st1 = (Ret msgs, st2)
          /\ In (fieldName, msgs) lists.
Proof.
  induction sch as [|[f c] rest IH]; intros st lists st' H.
  - simpl in H. unfold ret in H. injection H as <- <-. split; [reflexivity|]. intros ? ? [].
  - cbn [fields_in_order] in H. unfold bind in H.
    destruct (field_messages rt f c data st) as [[msgs|e] st1] eqn:E1; [|discriminate].
    destruct (fields_in_order rt data rest st1) as [[others|e] st2] eqn:E2; [|discriminate].
    unfold ret in H. injection H as <- <-.
    destruct (IH _ _ _ E2) as [Hk Hin]. split.
    + simpl. now rewrite Hk.
    + intros fieldName constraints [[= -> ->]|H'].
      * exists st, st1, msgs. split; [exact E1|now left].
      * destruct (Hin _ _ H') as (s1 & s2 & m & Hm & Hi).
        exists s1, s2, m. split; [exact Hm|now right].
Qed.

(** And every message list comes from a declared field. *)
Lemma fields_in_order_from data sch :
  forall st lists st',
    fields_in_order rt data sch st = (Ret lists, st') ->
    forall fieldName msgs,
      In (fieldName, msgs) lists ->
      exists constraints st1 st2,
        In (fieldName, constraints) sch
        /\ field_messages rt fieldName constraints data st1 = (Ret msgs, st2).
Proof.
  induction sch as [|[f c] rest IH]; intros st lists st' H fieldName msgs Hin.
  - simpl in H. unfold ret in H. injection H as <- _. destruct Hin.
  - cbn [fields_in_order] in H. unfold bind in H.
    destruct (field_messages rt f c data st) as [[ms|e] st1] eqn:E1; [|discriminate].
    destruct (fields_in_order rt data rest st1) as [[others|e] st2] eqn:E2; [|discriminate].
    unfold ret in H. injection H as <- _.
    destruct Hin as [[= -> ->]|Hin].
    + exists c, st, st1. split; [now left|exact E1].
    + destruct (IH _ _ _ E2 _ _ Hin) as (c' & s1 & s2 & Hc & Hm).
      exists c', s1, s2. split; [now right|exact Hm].
Qed.

Lemma obj_get_drop_empty_In lists fieldName msgs :
  obj_get (drop_empty lists) fieldName = Some msgs -> In (fieldName, msgs) lists.
Proof.
  induction lists as [|[f m] rest IH]; [discriminate|].
  unfold drop_empty. cbn [flat_map fst snd]. destruct m as [|x m]; cbn [report_of app].
  - intros H. right. now apply IH.
  - cbn [obj_get]. destruct (String.eqb f fieldName) eqn:E.
    + apply String.eqb_eq in E. subst f. intros [= <-]. now left.
    + intros H. right. now apply IH.
Qed.

Lemma obj_get_drop_empty lists fieldName msgs :
  NoDup (map fst lists) -> In (fieldName, msgs) lists -> msgs <> [] ->
  obj_get (drop_empty lists) fieldName = Some msgs.
Proof.
  induction lists as [|[f m] rest IH]; intros ND Hin Hne; [destruct Hin|].
  inversion ND as [|? ? Hnotin ND']; subst. unfold drop_empty. cbn [flat_map fst snd].
  destruct Hin as [[= -> ->]|Hin].
  - destruct msgs as [|x xs]; [contradiction|]. simpl. now rewrite String.eqb_refl.
  - rewrite obj_get_app_None.
    + now apply IH.
    + apply obj_get_report_of_other. intros ->. apply Hnotin.
      change fieldName with (fst (fieldName, msgs)). now apply in_map.
Qed.

(** No constraint name of either vocabulary is made of digits only. *)
Lemma vocabulary_in_words fieldValue k :
  keys_include (vocabulary fieldValue) k = true -> digits_only k = false.
Proof.
  intros H. apply keys_include_In in H.
  assert (Hk : In k scalar_vocabulary \/ In k file_vocabulary).
  { destruct fieldValue as [v|name size type|m]; cbn [vocabulary] in H;
      [now left|now right|destruct m; (now left) || (now right)]. }
  clear H. destruct Hk as [H|H];
    unfold scalar_vocabulary, file_vocabulary in H;
    repeat (destruct H as [<-|H]; [reflexivity|]); destruct H.
Qed.

(** A constraint outside the vocabulary is evaluated to no effect. *)
Lemma messages_in_order_known fieldValue data constraints :
  readable fieldValue = true ->
  forall st,
    messages_in_order rt fieldValue data constraints st
    = messages_in_order rt fieldValue data
        (filter (fun c => keys_include (vocabulary fieldValue) (fst c)) constraints) st.
Proof.
  intros Hr. induction constraints as [|[n p] rest IH]; intros st; [reflexivity|].
  cbn [filter fst]. destruct (keys_include (vocabulary fieldValue) n) eqn:E.
  - cbn [messages_in_order]. unfold bind.
    destruct (checkConstraint rt n fieldValue p data st) as [[iv|e] st1]; [|reflexivity].
    now rewrite IH.
  - cbn [messages_in_order]. unfold bind at 1.
    rewrite (checkConstraint_unknown n fieldValue p data st Hr E).
    rewrite contribution_Error.
    + unfold bind, ret. rewrite IH.
      now destruct (messages_in_order rt fieldValue data _ st) as [[msgs|e] st1].
    + intros ->. now rewrite validator_in_vocabulary in E.
Qed.

Lemma filter_known_in_words fieldValue (constraints : fieldRules) :
  filter (fun c => keys_include (vocabulary fieldValue) (fst c)) (filter named_in_words constraints)
  = filter (fun c => keys_include (vocabulary fieldValue) (fst c)) constraints.
Proof.
  induction constraints as [|[n p] rest IH]; [reflexivity|].
  cbn [filter]. unfold named_in_words at 1. cbn [fst].
  destruct (keys_include (vocabulary fieldValue) n) eqn:E.
  - rewrite (vocabulary_in_words fieldValue n E). cbn [negb filter fst]. rewrite E.
    now rewrite IH.
  - destruct (negb (digits_only n)); cbn [filter fst]; rewrite ?E; exact IH.
Qed.

(** The messages do not depend on where the integer-like names stand. *)
Lemma messages_in_order_enumeration fieldValue data (declared entries : fieldRules) st :
  readable fieldValue = true ->
  filter named_in_words entries = filter named_in_words declared ->
  messages_in_order rt fieldValue data entries st
  = messages_in_order rt fieldValue data declared st.
Proof.
  intros Hr H.
  rewrite (messages_in_order_known fieldValue data entries Hr).
  rewrite (messages_in_order_known fieldValue data declared Hr).
  rewrite <- (filter_known_in_words fieldValue entries).
  rewrite <- (filter_known_in_words fieldValue declared).
  now rewrite H.
Qed.

End Constraints.

(** ** Computations that do not touch the store *)

Section Stateless.

Variable W : Type.
Variable rt : env W.

Lemma stateless_ret (A : Type) (a : A) : stateless (@ret (store W) A a).
Proof. now exists (Ret a). Qed.

Lemma stateless_throw (A : Type) (e : exn) : stateless (@throw (store W) A e).
Proof. now exists (Throw e). Qed.

Lemma stateless_lift (A : Type) (o : outcome A) : stateless (@lift (store W) A o).
Proof. now exists o. Qed.

Lemma stateless_bind (A B : Type) (c : M (store W) A) (k : A -> M (store W) B) :
  stateless c -> (forall a, stateless (k a)) -> stateless (bind c k).
Proof.
  intros [o Ho] Hk. destruct o as [a|e].
  - destruct (Hk a) as [o' Ho']. exists o'. intros st. unfold bind. now rewrite Ho.
  - exists (Throw e). intros st. unfold bind. now rewrite Ho.
Qed.

Lemma stateless_bind_lift (A B : Type) (o : outcome A) (k : A -> M (store W) B) :
  (forall a, o = Ret a -> stateless (k a)) -> stateless (bind (lift o) k).
Proof.
  intros Hk. destruct o as [a|e].
  - destruct (Hk a eq_refl) as [o' Ho']. now exists o'.
  - now exists (Throw e).
Qed.

Lemma stateless_for_of (A B : Type) (l : list A) (body : B -> A -> M (store W) B) :
  (forall acc x, In x l -> stateless (body acc x)) ->
  forall acc, stateless (for_of l body acc).
Proof.
  induction l as [|x l IH]; intros Hbody acc; simpl.
  - apply stateless_ret.
  - apply stateless_bind.
    + apply Hbody. now left.
    + intros acc'. apply IH. intros a y Hy. apply Hbody. now right.
Qed.

(** A [switch] is stateless when the case it selects is. *)
Lemma stateless_switch (A : Type) (name : string)
  (cases : list (string * M (store W) A)) (d : M (store W) A) :
  Forall (fun c => name = fst c -> stateless (snd c)) cases -> stateless d ->
  stateless (switch name cases d).
Proof.
  intros Hc Hd. induction Hc as [|[label body] cases Hhead Htail IH]; simpl; [exact Hd|].
  destruct (String.eqb name label) eqn:E; [|exact IH].
  apply String.eqb_eq in E. now apply Hhead.
Qed.

Hypothesis callbacks_pure : pure_callbacks rt.

Lemma stateless_call_value f args : stateless (call_value rt f args).
Proof.
  destruct f as [| | | | | |m]; simpl; try apply stateless_throw.
  - apply callbacks_pure.
  - destruct m; try apply stateless_throw; apply stateless_lift.
Qed.

Lemma stateless_method_includes recv x : stateless (method_includes rt recv x).
Proof.
  destruct recv as [[| | | |s]| | | | | |]; simpl;
    try apply stateless_throw; try apply stateless_ret.
  apply stateless_call_value.
Qed.

Lemma stateless_regexp_test r s :
  re_global r || re_sticky r = false -> stateless (regexp_test r s (W:=W)).
Proof.
  intros H. exists (Ret (vbool (Regex.test (re_source r) s))). intros st.
  unfold regexp_test. now rewrite H.
Qed.

Lemma stateless_method_test recv x :
  match recv with VRegExp r => re_global r || re_sticky r = false | _ => True end ->
  stateless (method_test rt recv x).
Proof.
  destruct recv; simpl; intros H; try apply stateless_throw.
  - apply stateless_call_value.
  - now apply stateless_regexp_test.
Qed.

Lemma stateless_case_validator fieldValue constraintParams data :
  stateless (case_validator rt fieldValue constraintParams data).
Proof. apply stateless_call_value. Qed.

Lemma stateless_case_validate fieldValue constraintParams data :
  stateless (case_validate rt fieldValue constraintParams data).
Proof.
  unfold case_validate. apply stateless_bind; [apply stateless_lift|]. intros len.
  destruct (strict_eq_prim (PNum 3) len);
    repeat (apply stateless_bind; [apply stateless_lift|intros ?]);
    apply stateless_call_value.
Qed.

Lemma stateless_case_pattern v constraintParams :
  stateless (case_pattern rt v constraintParams).
Proof.
  unfold case_pattern. apply stateless_bind; [apply stateless_lift|]. intros p0.
  destruct (obj_get Patterns.patterns (to_property_key rt p0)).
  - destruct (strict_eq_prim (PNum 0) (nameless_length v)); apply stateless_ret.
  - destruct (inherited (to_property_key rt p0)); [|apply stateless_ret].
    destruct (strict_eq_prim (PNum 0) (nameless_length v));
      [apply stateless_ret|apply stateless_throw].
Qed.

(** Closes the goals that are a [param0] followed by a pure answer or by
    a method call. *)
Ltac stateless_case :=
  unfold not_, param0;
  repeat first
    [ apply stateless_ret
    | apply stateless_case_validator
    | apply stateless_case_validate
    | apply stateless_case_pattern
    | apply stateless_method_includes
    | apply stateless_bind; [|intros ?]
    | apply stateless_lift ].

Lemma stateless_checkConstraint constraintName fieldValue constraintParams data :
  (constraintName = "regexp" -> flagless constraintParams = true) ->
  stateless (checkConstraint rt constraintName fieldValue constraintParams data).
Proof.
  intros Hflag. unfold checkConstraint.
  assert (Htest : forall v, constraintName = "regexp" ->
             stateless (p0 <- param0 constraintParams ;; method_test rt p0 v)).
  { intros v Hname. specialize (Hflag Hname).
    unfold param0. apply stateless_bind_lift. intros p0 Hp0.
    apply stateless_method_test. unfold flagless in Hflag. rewrite Hp0 in Hflag.
    destruct p0; trivial. now apply negb_true_iff in Hflag. }
  assert (Hscalar : forall v, stateless (switch constraintName
                             (scalar_cases rt v constraintParams data) (ret VError))).
  { intros v. apply stateless_switch; [|apply stateless_ret].
    unfold scalar_cases. repeat apply Forall_cons; try apply Forall_nil;
      cbn [fst snd]; intros Hname; try (now apply Htest); stateless_case. }
  assert (Hfile : forall fv name size type, stateless (switch constraintName
                             (file_cases rt fv name size type constraintParams data)
                             (ret VError))).
  { intros fv name size type. apply stateless_switch; [|apply stateless_ret].
    unfold file_cases. repeat apply Forall_cons; try apply Forall_nil;
      cbn [fst snd]; intros _; stateless_case. }
  destruct fieldValue as [v|name size type|m].
  - destruct v; try apply Hscalar; apply stateless_throw.
  - apply Hfile.
  - destruct m; try apply Hfile; apply Hscalar.
Qed.

Lemma stateless_checkConstraints fieldName constraints data :
  flagless_rules constraints = true ->
  stateless (checkConstraints rt fieldName constraints data).
Proof.
  intros Hflag. unfold checkConstraints.
  destruct (short_circuit fieldName constraints data); [apply stateless_ret|].
  apply stateless_bind; [|intros ?; apply stateless_ret].
  apply stateless_for_of. intros acc [n p] Hin. unfold check_step.
  apply stateless_bind.
  - apply stateless_checkConstraint. intros ->.
    unfold flagless_rules in Hflag. rewrite forallb_forall in Hflag.
    apply (Hflag _ Hin).
  - intros isValidated. cbv zeta.
    destruct (truthy (derive_message n p isValidated));
      [apply stateless_lift|apply stateless_ret].
Qed.

Lemma stateless_validateForm sch data :
  flagless_schema sch = true -> stateless (validateForm rt sch data).
Proof.
  intros Hflag. unfold validateForm. apply stateless_for_of.
  intros acc [f c] Hin. unfold form_step.
  apply stateless_bind; [|intros ?; apply stateless_ret].
  apply stateless_checkConstraints.
  unfold flagless_schema in Hflag. rewrite forallb_forall in Hflag.
  apply (Hflag _ Hin).
Qed.

End Stateless.

(** * The claims *)

Section Claims.

Variable W : Type.
Variable rt : env W.
Implicit Types (st : store W) (errors : errorReport) (msgs : list value).
Implicit Types (sch : schema) (data : dataRecord) (fieldName : string).

(** C10, amended.  For a field name that the schema does not declare,
    [validateField] evaluates no constraint, leaves the store as it was and
    returns a result without entries, whatever the data record, the store
    and the caller's functions are: the empty report, except that it
    returns [null] when the name is that of a member of [Object.prototype]
    and the data record holds the empty string under it. *)
Theorem validateField_undeclared sch fieldName data st :
  obj_get sch fieldName = None ->
  validateField rt sch fieldName data st
  = (Ret (if inherited fieldName && strict_eq_field (PStr "") (data_get data fieldName)
          then None else Some []), st).
Proof.
  intros H. unfold validateField. rewrite H.
  destruct (inherited fieldName); [|reflexivity].
  unfold checkConstraints, short_circuit. cbn [obj_keys map keys_include existsb negb].
  rewrite andb_true_r.
  now destruct (strict_eq_field (PStr "") (data_get data fieldName)).
Qed.

(** C4.  When the value of a field is the empty string and none of the
    rules declared for it is [required], [validateField] returns at once
    with no entry for the field, and no report returned by [validateForm]
    has an entry for it, whatever else the field declares. *)
Theorem optional_empty_field_has_no_entry sch fieldName data :
  data_get data fieldName = Scalar (PStr "") ->
  (forall constraints, In (fieldName, constraints) sch ->
     keys_include (obj_keys constraints) "required" = false) ->
  (forall st, exists res,
      validateField rt sch fieldName data st = (Ret res, st)
      /\ entry res fieldName = None)
  /\ (forall st r st',
      validateForm rt sch data st = (Ret r, st') -> obj_get r fieldName = None).
Proof.
  intros Hempty Hopt.
  assert (Hsc : forall constraints, In (fieldName, constraints) sch ->
                  short_circuit fieldName constraints data = true).
  { intros c Hc. unfold short_circuit. rewrite Hempty, (Hopt c Hc). reflexivity. }
  split.
  - intros st. unfold validateField.
    destruct (obj_get sch fieldName) as [constraints|] eqn:E.
    + apply obj_get_In in E. unfold checkConstraints. rewrite (Hsc _ E).
      now exists None.
    + destruct (inherited fieldName); [|now exists (Some [])].
      unfold checkConstraints, short_circuit. rewrite Hempty. now exists None.
  - intros st r st'. unfold validateForm.
    apply (form_loop_invariant rt (fun errors => obj_get errors fieldName = None)); [|reflexivity].
    intros errors f c msgs Hin Hmsgs Herr.
    destruct (String.eqb f fieldName) eqn:E.
    + apply String.eqb_eq in E. subst f. now rewrite (Hmsgs (Hsc _ Hin)).
    + apply String.eqb_neq in E. now rewrite obj_get_spread_other.
Qed.

(** C9.  Every report that [validateField] or [validateForm] returns maps
    each of its field names to a list of at least one message. *)
Theorem reports_hold_nonempty_lists sch data :
  (forall fieldName st r st',
      validateField rt sch fieldName data st = (Ret (Some r), st') -> nonempty_lists r)
  /\ (forall st r st',
      validateForm rt sch data st = (Ret r, st') -> nonempty_lists r).
Proof.
  split.
  - intros fieldName st r st' H.
    destruct (validateField_Ret rt _ _ _ _ H) as [[E _]|(c & msgs & _ & E & _)];
      [discriminate|].
    injection E as ->. apply nonempty_report_of.
  - intros st r st'. unfold validateForm.
    apply (form_loop_invariant rt nonempty_lists); [|constructor].
    intros errors f c msgs _ _. apply nonempty_spread.
Qed.

(** C7.  The messages of a field stand in its entry in the order in which
    its constraints are declared: [validateField] returns the report of
    what is collected for the field, and [validateForm], on a schema whose
    field names are distinct, returns the reports of its fields one after
    the other.  What is collected for a field are the contributions of its
    constraints taken in declaration order; under a field name that is
    also the name of a member of [Object.prototype] no message can be
    stored, the first one is a [TypeError] instead, and a list that is
    collected there is the empty one, which is again the list of the
    contributions in declaration order.  The enumeration of a field's rules
    may move integer-like names to the front; as long as the names written
    in words keep their declared order, the messages are those of the
    declared order. *)
Theorem messages_in_declaration_order sch data :
  (forall fieldName constraints st,
      obj_get sch fieldName = Some constraints ->
      validateField rt sch fieldName data st
      = (if short_circuit fieldName constraints data then ret None
         else msgs <- collected rt fieldName data constraints ;;
              ret (Some (report_of fieldName msgs))) st)
  /\ (NoDup (obj_keys sch) ->
      forall st,
        validateForm rt sch data st
        = (lists <- fields_in_order rt data sch ;; ret (drop_empty lists)) st)
  /\ (forall fieldName constraints st,
        inherited fieldName = false ->
        collected rt fieldName data constraints st
        = messages_in_order rt (data_get data fieldName) data constraints st)
  /\ (forall fieldName constraints st msgs st',
        collected rt fieldName data constraints st = (Ret msgs, st') ->
        messages_in_order rt (data_get data fieldName) data constraints st = (Ret msgs, st'))
  /\ (forall fieldValue declared entries st,
        readable fieldValue = true ->
        filter named_in_words entries = filter named_in_words declared ->
        messages_in_order rt fieldValue data entries st
        = messages_in_order rt fieldValue data declared st).
Proof.
  split; [|split; [|split; [|split]]].
  - intros fieldName constraints st H. unfold validateField. rewrite H.
    apply checkConstraints_in_order.
  - intros ND st. now apply validateForm_in_order.
  - intros fieldName constraints st H. unfold collected. now rewrite H.
  - intros fieldName constraints st msgs st' H. now apply collected_Ret in H.
  - intros fieldValue declared entries st. apply messages_in_order_enumeration.
Qed.

(** C1.  A constraint whose name is outside the vocabulary of the branch
    taken for the field value makes [checkConstraint] return the [Error]
    object of the [default] case, without throwing; the loop of
    [checkConstraints] then finds a truthy result and leaves the report as
    it was, so the field passes. *)
Theorem unknown_constraint_passes_silently fieldName data errors constraintName
  constraintParams st :
  readable (data_get data fieldName) = true ->
  keys_include (vocabulary (data_get data fieldName)) constraintName = false ->
  checkConstraint rt constraintName (data_get data fieldName) constraintParams data st
  = (Ret VError, st)
  /\ check_step rt fieldName data errors (constraintName, constraintParams) st
     = (Ret errors, st).
Proof.
  intros Hr Hn.
  pose proof (checkConstraint_unknown rt constraintName (data_get data fieldName)
                constraintParams data st Hr Hn) as Hc.
  split; [exact Hc|].
  unfold check_step, bind. rewrite Hc.
  assert (Hv : constraintName <> "validator").
  { intros ->. now rewrite validator_in_vocabulary in Hn. }
  apply String.eqb_neq in Hv. unfold derive_message. rewrite Hv. reflexivity.
Qed.

(** C2, amended.  Evaluating a [validator] constraint returns what the
    supplied function returns for the field value and the data record; the
    constraint contributes a message exactly when that value is truthy, and
    the value itself is the message, whatever its type; a falsy value is
    never a message.  The step of the loop stores the value when it is
    truthy, which is a [TypeError] when the report cannot hold a list under
    the field's name, and leaves the report as it is otherwise.  In every
    report that [validateField] returns for a field that declares a
    validator among its rules, and in every report that [validateForm]
    returns when the field is not skipped, the function has been called and
    what it returned is in the entry of the field if it is truthy; every
    message of every entry is truthy. *)
Theorem validator_contributes_truthy_result sch fieldName constraints data id arity :
  readable (data_get data fieldName) = true ->
  obj_get sch fieldName = Some constraints ->
  In ("validator", VFun id arity) constraints ->
  (forall st,
      checkConstraint rt "validator" (data_get data fieldName) (VFun id arity) data st
      = call rt id [field_to_value (data_get data fieldName); data_to_value data] st)
  /\ (forall constraintParams returned,
        contribution "validator" constraintParams returned
        = if truthy returned then [returned] else [])
  /\ (forall errors st,
        check_step rt fieldName data errors ("validator", VFun id arity) st
        = (returned <- call rt id [field_to_value (data_get data fieldName);
                                   data_to_value data] ;;
           if truthy returned then lift (push_message errors fieldName returned)
           else ret errors) st)
  /\ (forall st res st',
        validateField rt sch fieldName data st = (Ret (Some res), st') ->
        (exists st1 st2 returned,
            call rt id [field_to_value (data_get data fieldName); data_to_value data] st1
            = (Ret returned, st2)
            /\ (truthy returned = true ->
                exists msgs, obj_get res fieldName = Some msgs /\ In returned msgs))
        /\ (forall msgs, obj_get res fieldName = Some msgs ->
              Forall (fun message => truthy message = true) msgs))
  /\ (NoDup (obj_keys sch) ->
      forall st r st',
        validateForm rt sch data st = (Ret r, st') ->
        (short_circuit fieldName constraints data = false ->
         exists st1 st2 returned,
           call rt id [field_to_value (data_get data fieldName); data_to_value data] st1
           = (Ret returned, st2)
           /\ (truthy returned = true ->
               exists msgs, obj_get r fieldName = Some msgs /\ In returned msgs))
        /\ (forall name msgs, obj_get r name = Some msgs ->
              Forall (fun message => truthy message = true) msgs)).
Proof.
  intros Hr Hsch Hin.
  assert (H1 : forall st,
      checkConstraint rt "validator" (data_get data fieldName) (VFun id arity) data st
      = call rt id [field_to_value (data_get data fieldName); data_to_value data] st).
  { intros st. destruct (data_get data fieldName) as [[| | | |]| |m];
      try discriminate; try reflexivity. now destruct m. }
  assert (H2 : forall constraintParams returned,
        contribution "validator" constraintParams returned
        = if truthy returned then [returned] else []).
  { intros p r. unfold contribution, derive_message. simpl.
    destruct (truthy r) eqn:E; simpl; [now rewrite E|reflexivity]. }
  assert (H3 : forall st msgs st',
             messages_in_order rt (data_get data fieldName) data constraints st
             = (Ret msgs, st') ->
             exists st1 st2 returned,
               call rt id [field_to_value (data_get data fieldName); data_to_value data] st1
               = (Ret returned, st2)
               /\ (truthy returned = true -> In returned msgs)).
  { intros st msgs st' Hm.
    destruct (messages_in_order_In rt _ _ _ _ Hm _ _ Hin) as (s1 & s2 & iv & Hcall & Hi).
    rewrite H1 in Hcall. exists s1, s2, iv. split; [exact Hcall|].
    intros Htruthy. rewrite H2, Htruthy in Hi. apply Hi. now left. }
  split; [exact H1|]. split; [exact H2|]. split; [|split].
  - intros errors st. unfold check_step, bind. rewrite H1.
    destruct (call rt id _ st) as [[r|e] st1]; [|reflexivity].
    unfold derive_message. simpl.
    destruct (truthy r) eqn:E; simpl; now rewrite ?E.
  - intros st res st' H.
    destruct (validateField_Ret rt _ _ _ _ H) as [[E _]|(c & msgs & Hm & E & _ & Hc)];
      [discriminate|].
    injection E as ->. rewrite Hsch in Hc. subst c. split.
    + destruct (H3 _ _ _ Hm) as (s1 & s2 & iv & Hcall & Hi).
      exists s1, s2, iv. split; [exact Hcall|].
      intros Htruthy. specialize (Hi Htruthy). exists msgs. split; [|exact Hi].
      destruct msgs as [|x xs]; [destruct Hi|]. simpl. now rewrite String.eqb_refl.
    + intros l Hl. apply messages_in_order_truthy in Hm.
      destruct msgs as [|x xs]; [discriminate|].
      simpl in Hl. rewrite String.eqb_refl in Hl. now injection Hl as <-.
  - intros ND st r st' H. rewrite validateForm_in_order in H by exact ND.
    unfold bind, ret in H.
    destruct (fields_in_order rt data sch st) as [[lists|e] st1] eqn:E; [|discriminate].
    injection H as <- _. destruct (fields_in_order_In rt _ _ _ E) as [Hk Hfields]. split.
    + intros Hsc.
      destruct (Hfields _ _ (obj_get_In _ _ Hsch)) as (s1 & s2 & msgs & Hm & Hl).
      apply field_messages_Ret in Hm. rewrite Hsc in Hm.
      destruct (H3 _ _ _ Hm) as (s3 & s4 & iv & Hcall & Hi).
      exists s3, s4, iv. split; [exact Hcall|].
      intros Htruthy. specialize (Hi Htruthy). exists msgs. split; [|exact Hi].
      apply obj_get_drop_empty; [now rewrite Hk|exact Hl|]. intros ->. destruct Hi.
    + intros name msgs Hl. apply obj_get_drop_empty_In in Hl.
      destruct (fields_in_order_from rt _ _ _ E _ _ Hl) as (c & s1 & s2 & _ & Hm).
      apply field_messages_Ret in Hm. destruct (short_circuit name c data).
      * destruct Hm as [-> _]. constructor.
      * now apply messages_in_order_truthy in Hm.
Qed.

(** C3, amended.  When a field declares [required] with a truthy message
    (a non-empty string, say) and its value is the empty string or a file
    descriptor with an empty name, every report that [validateField]
    returns for the field, and every report that [validateForm] returns for
    a schema with distinct field names, holds that message in the entry of
    the field. *)
Theorem required_message_reported sch fieldName constraints constraintParams data :
  NoDup (obj_keys sch) ->
  obj_get sch fieldName = Some constraints ->
  In ("required", constraintParams) constraints ->
  truthy (declared_message constraintParams) = true ->
  empty_value (data_get data fieldName) = true ->
  (forall st res st',
      validateField rt sch fieldName data st = (Ret res, st') ->
      exists msgs, entry res fieldName = Some msgs
                   /\ In (declared_message constraintParams) msgs)
  /\ (forall st r st',
      validateForm rt sch data st = (Ret r, st') ->
      exists msgs, obj_get r fieldName = Some msgs
                   /\ In (declared_message constraintParams) msgs).
Proof.
  intros ND Hsch Hin Htruthy Hempty.
  assert (Hsc : short_circuit fieldName constraints data = false).
  { unfold short_circuit.
    replace (keys_include (obj_keys constraints) "required") with true.
    - apply andb_false_r.
    - symmetry. apply keys_include_In. unfold obj_keys.
      change "required" with (fst ("required", constraintParams)). now apply in_map. }
  assert (Hmsgs : forall st msgs st',
             field_messages rt fieldName constraints data st = (Ret msgs, st') ->
             In (declared_message constraintParams) msgs).
  { intros st msgs st' H. apply field_messages_Ret in H. rewrite Hsc in H.
    destruct (messages_in_order_In rt _ _ _ _ H _ _ Hin) as (s1 & s2 & iv & Hc & Hi).
    rewrite required_on_empty in Hc by exact Hempty. injection Hc as <- _.
    rewrite contribution_failed in Hi by discriminate. rewrite Htruthy in Hi.
    apply Hi. now left. }
  split.
  - intros st res st'. unfold validateField. rewrite Hsch. intros H.
    apply checkConstraints_Ret in H. destruct H as (msgs & Hm & He & _).
    exists msgs. pose proof (Hmsgs _ _ _ Hm) as Hi. split; [|exact Hi].
    rewrite He. destruct msgs; [destruct Hi|]. simpl. now rewrite String.eqb_refl.
  - intros st r st'. rewrite validateForm_in_order by exact ND. unfold bind, ret.
    destruct (fields_in_order rt data sch st) as [[lists|e] st1] eqn:E; [|discriminate].
    intros [= <- <-].
    destruct (fields_in_order_In rt _ _ _ E) as [Hk Hfields].
    destruct (Hfields _ _ (obj_get_In _ _ Hsch)) as (s1 & s2 & msgs & Hm & Hl).
    exists msgs. pose proof (Hmsgs _ _ _ Hm) as Hi. split; [|exact Hi].
    apply obj_get_drop_empty; [now rewrite Hk|exact Hl|].
    intros ->. destruct Hi.
Qed.


(** C8, amended.  When every function of the caller is pure (the
    functions given to [validator] and [validate], and as well a [test] or
    an [includes] that a parameter object brings for [regexp], [in] and
    their like) and no regular expression given to a [regexp] constraint
    carries the global or the sticky flag, [validateForm] returns the same
    outcome from every store and leaves the store as it was; two calls on
    the same schema and data, one after the other, return identical
    reports.  The comparisons and the string conversions are those of the
    runtime: the parameters bring no [valueOf] and no [toString] of their
    own. *)
Theorem validateForm_repeatable sch data :
  pure_callbacks rt ->
  flagless_schema sch = true ->
  forall st st',
    fst (validateForm rt sch data (snd (validateForm rt sch data st)))
    = fst (validateForm rt sch data st)
    /\ snd (validateForm rt sch data st) = st
    /\ fst (validateForm rt sch data st') = fst (validateForm rt sch data st).
Proof.
  intros Hpure Hflag st st'.
  destruct (stateless_validateForm Hpure sch data Hflag) as [o Ho].
  now rewrite !Ho.
Qed.

End Claims.

(** C6.  What each pattern of the registry accepts.  [email] accepts
    exactly text[@]text[.]text without white space, and [alpha] exactly
    the strings without a listed character, as their names promise.
    [integer] accepts every string that starts with a digit, whatever
    follows; [double] accepts digits around any one character; [number]
    rejects every string without a backslash, hence every string made of
    digits, a sign and a decimal point. *)
Theorem registry_patterns_accept :
  (forall s, Regex.test Patterns.email s = true
             <-> exists a b c,
                 Regex.code_units s
                 = a ++ [Patterns.code "@"] ++ b ++ [Patterns.code "."] ++ c
                 /\ Regex.text a /\ Regex.text b /\ Regex.text c)
  /\ (forall s, Regex.test Patterns.alpha s
                = forallb (fun c => negb (Regex.in_ranges
                                           (Regex.singletons Patterns.alpha_blacklist) c))
                    (Regex.code_units s))
  /\ (forall s, Regex.test Patterns.integer s
                = match s with
                  | String c _ => Regex.in_ranges [(48, 57)]%N (N_of_ascii c)
                  | EmptyString => false
                  end)
  /\ (forall s, Regex.test Patterns.double s = true
                <-> exists a c b,
                    Regex.code_units s = a ++ [c] ++ b
                    /\ Regex.digits a
                    /\ Regex.class_mem true Regex.line_terminators c = true
                    /\ Regex.digits b)
  /\ (forall s, ~ In (Patterns.code "\") (Regex.code_units s) ->
                Regex.test Patterns.number s = false).
Proof.
  split; [exact test_email|]. split; [exact test_alpha|]. split; [exact test_integer|].
  split; [exact test_double|exact number_needs_backslash].
Qed.

(** * The claims on concrete schemas *)

Module Examples.
Import Sample.

(** The examples 1 to 5 of the specification. *)
Example required_on_empty_login :
  validateForm rt [("login", [("required", vstr "Required")])]
    [("login", Scalar (PStr ""))] st0
  = (Ret [("login", [vstr "Required"])], st0).
Proof. reflexivity. Qed.

Example min_on_short_and_empty_login :
  validateForm rt [("login", [("min", VArr [vnum 4; vstr "Too short"])])]
    [("login", Scalar (PStr "ab"))] st0
  = (Ret [("login", [vstr "Too short"])], st0)
  /\ validateForm rt [("login", [("min", VArr [vnum 4; vstr "Too short"])])]
       [("login", Scalar (PStr ""))] st0
     = (Ret [], st0).
Proof. split; reflexivity. Qed.

Example equalField_on_passwords :
  validateForm rt [("password", [("equalField", VArr [vstr "login"; vstr "Must equal"])])]
    [("login", Scalar (PStr "x")); ("password", Scalar (PStr "y"))] st0
  = (Ret [("password", [vstr "Must equal"])], st0)
  /\ validateForm rt [("password", [("equalField", VArr [vstr "login"; vstr "Must equal"])])]
       [("login", Scalar (PStr "x")); ("password", Scalar (PStr "x"))] st0
     = (Ret [], st0).
Proof. split; reflexivity. Qed.

Example ext_on_avatar :
  validateForm rt [("avatar", [("ext", VArr [vstr "png"; vstr "Must be png"])])]
    [("avatar", File "a.jpg" 10 "image/jpeg")] st0
  = (Ret [("avatar", [vstr "Must be png"])], st0).
Proof. reflexivity. Qed.

Example validator_on_passwords :
  validateForm rt [("password", [("validator", VFun 0 2)])]
    [("password", Scalar (PStr "ab"))] st0
  = (Ret [("password", [vstr "Password is too short!"])], st0)
  /\ validateForm rt [("password", [("validator", VFun 0 2)])]
       [("password", Scalar (PStr "abcdef"))] st0
     = (Ret [], st0).
Proof. split; reflexivity. Qed.

(** A field that the data record lacks cannot be read: the validation
    throws.  A field that it lacks and inherits is a function, which has a
    name: it is validated like a file, and [required] passes. *)
Example missing_field_throws :
  validateForm rt login_schema [] st0 = (Throw TypeError, st0)
  /\ validateForm rt [("toString", [("required", vstr "Field is required")])] [] st0
     = (Ret [], st0).
Proof. split; reflexivity. Qed.

Lemma callbacks_are_pure : pure_callbacks rt.
Proof.
  intros id args. destruct id as [|[|[|id]]]; eexists; intros st; reflexivity.
Qed.

Lemma login_schema_NoDup : NoDup (obj_keys login_schema).
Proof.
  repeat constructor; simpl; intuition discriminate.
Qed.

(** Counterexample to C10: the schema does not declare [toString], the
    form has a field of that name and the field is empty.  [validateField]
    returns [null], which is no report at all. *)
Lemma undeclared_inherited_name_gets_null :
  obj_get login_schema "toString" = None
  /\ validateField rt login_schema "toString" [("toString", Scalar (PStr ""))] st0
     = (Ret None, st0).
Proof. split; reflexivity. Qed.

(** Witness of C10 as amended on the documentation's schema: [email] is not
    declared, and neither is [toString], which the form of the second
    record lacks and that of the third one holds empty. *)
Lemma validateField_undeclared_witness :
  obj_get login_schema "email" = None
  /\ validateField rt login_schema "email" login_data st0 = (Ret (Some []), st0)
  /\ obj_get login_schema "toString" = None
  /\ validateField rt login_schema "toString" login_data st0 = (Ret (Some []), st0)
  /\ validateField rt login_schema "toString" [("toString", Scalar (PStr ""))] st0
     = (Ret None, st0).
Proof.
  split; [reflexivity|]. split; [|split; [reflexivity|split]].
  - exact (validateField_undeclared rt login_schema "email" login_data st0 eq_refl).
  - exact (validateField_undeclared rt login_schema "toString" login_data st0 eq_refl).
  - exact (validateField_undeclared rt login_schema "toString"
             [("toString", Scalar (PStr ""))] st0 eq_refl).
Defined.

(** Witness of C4 on [{ nick: { min: [4, 'Too short'] } }] with an empty [nick]. *)
Lemma optional_empty_field_has_no_entry_witness :
  data_get optional_data "nick" = Scalar (PStr "")
  /\ (exists res, validateField rt optional_schema "nick" optional_data st0 = (Ret res, st0)
                  /\ entry res "nick" = None)
  /\ (exists r, validateForm rt optional_schema optional_data st0 = (Ret r, st0)
                /\ obj_get r "nick" = None).
Proof.
  assert (H : forall constraints, In ("nick", constraints) optional_schema ->
                keys_include (obj_keys constraints) "required" = false).
  { intros c [[= <-]|[]]. reflexivity. }
  pose proof (optional_empty_field_has_no_entry rt optional_schema "nick" optional_data
                eq_refl H) as [Hfield Hform].
  split; [reflexivity|]. split; [apply Hfield|].
  exists []. split; [reflexivity|]. apply (Hform st0 [] st0). reflexivity.
Defined.

(** Witness of C9 on the documentation's schema. *)
Lemma reports_hold_nonempty_lists_witness :
  validateForm rt login_schema login_data st0
  = (Ret [("login", [vstr "Field is required";
                     vstr "Login must contain at least 4 characters"]);
          ("password", [vstr "Password is too short!"])], st0)
  /\ nonempty_lists [("login", [vstr "Field is required";
                                vstr "Login must contain at least 4 characters"]);
                     ("password", [vstr "Password is too short!"])].
Proof.
  split; [reflexivity|].
  apply (proj2 (reports_hold_nonempty_lists rt login_schema login_data) st0 _ st0).
  reflexivity.
Defined.

(** Witness of C7 on the documentation's schema, and on rules in which the
    name [7] was declared second and is enumerated first. *)
Lemma messages_in_declaration_order_witness :
  obj_get login_schema "login"
  = Some [("required", vstr "Field is required");
          ("min", VArr [vnum 4; vstr "Login must contain at least 4 characters"])]
  /\ NoDup (obj_keys login_schema)
  /\ validateField rt login_schema "login" login_data st0
     = (Ret (Some [("login", [vstr "Field is required";
                              vstr "Login must contain at least 4 characters"])]), st0)
  /\ validateForm rt login_schema login_data st0
     = (lists <- fields_in_order rt login_data login_schema ;; ret (drop_empty lists)) st0
  /\ messages_in_order rt (Scalar (PStr "")) login_data
       [("7", vstr "seven"); ("required", vstr "Field is required");
        ("min", VArr [vnum 4; vstr "Too short"])] st0
     = messages_in_order rt (Scalar (PStr "")) login_data
         [("required", vstr "Field is required"); ("7", vstr "seven");
          ("min", VArr [vnum 4; vstr "Too short"])] st0.
Proof.
  pose proof (messages_in_declaration_order rt login_schema login_data)
    as (Hfield & Hform & _ & _ & Henum).
  split; [reflexivity|]. split; [exact login_schema_NoDup|]. split; [|split].
  - rewrite (Hfield "login" _ st0 eq_refl). reflexivity.
  - apply Hform. exact login_schema_NoDup.
  - apply Henum; reflexivity.
Defined.

(** Under a field name that the report inherits, the first message is a
    [TypeError]: [{ constructor: { min: [3, 'short'] } }] on
    [{ constructor: 'ab' }] throws, and returns the empty report on
    [{ constructor: 'abc' }]. *)
Example inherited_field_name_stores_no_message :
  validateForm rt [("constructor", [("min", VArr [vnum 3; vstr "short"])])]
    [("constructor", Scalar (PStr "ab"))] st0
  = (Throw TypeError, st0)
  /\ validateForm rt [("constructor", [("min", VArr [vnum 3; vstr "short"])])]
       [("constructor", Scalar (PStr "abc"))] st0
     = (Ret [], st0).
Proof. split; reflexivity. Qed.

(** Witness of C1 on [{ login: { foo: 'msg' } }]. *)
Lemma unknown_constraint_passes_silently_witness :
  readable (data_get unknown_data "login") = true
  /\ keys_include (vocabulary (data_get unknown_data "login")) "foo" = false
  /\ checkConstraint rt "foo" (data_get unknown_data "login") (vstr "msg") unknown_data st0
     = (Ret VError, st0)
  /\ check_step rt "login" unknown_data [] ("foo", vstr "msg") st0 = (Ret [], st0).
Proof.
  split; [reflexivity|]. split; [reflexivity|].
  apply (unknown_constraint_passes_silently rt "login" unknown_data [] "foo" (vstr "msg") st0);
    reflexivity.
Defined.

(** The report for [{ login: { foo: 'msg' } }]: the field with the unknown
    constraint is reported as valid. *)
Example unknown_constraint_empty_report :
  validateForm rt unknown_schema unknown_data st0 = (Ret [], st0).
Proof. reflexivity. Qed.

(** Counterexample to C2: the function [() => true] returns a boolean, and
    the boolean is reported as the message of the field. *)
Lemma validator_true_is_reported :
  call rt 1 [field_to_value (data_get true_data "password"); data_to_value true_data] st0
  = (Ret (vbool true), st0)
  /\ validateForm rt true_schema true_data st0 = (Ret [("password", [vbool true])], st0).
Proof. split; reflexivity. Qed.

(** Witness of C2 as amended, on the documentation's [checkPassword]. *)
Lemma validator_contributes_truthy_result_witness :
  readable (data_get login_data "password") = true
  /\ obj_get login_schema "password"
     = Some [("required", vstr "Field is required"); ("validator", VFun 0 2)]
  /\ checkConstraint rt "validator" (data_get login_data "password") (VFun 0 2) login_data st0
     = (Ret (vstr "Password is too short!"), st0)
  /\ contribution "validator" (VFun 0 2) (vstr "Password is too short!")
     = [vstr "Password is too short!"]
  /\ contribution "validator" (VFun 0 2) (vbool false) = []
  /\ validateField rt login_schema "password" login_data st0
     = (Ret (Some [("password", [vstr "Password is too short!"])]), st0)
  /\ Forall (fun message => truthy message = true) [vstr "Password is too short!"].
Proof.
  assert (Hin : In ("validator", VFun 0 2)
                  [("required", vstr "Field is required"); ("validator", VFun 0 2)])
    by (right; now left).
  pose proof (@validator_contributes_truthy_result _ rt login_schema "password" _ login_data
                0 2 eq_refl eq_refl Hin) as (Heval & Hcontrib & _ & Hreport & _).
  split; [reflexivity|]. split; [reflexivity|]. split; [rewrite Heval; reflexivity|].
  split; [rewrite Hcontrib; reflexivity|]. split; [rewrite Hcontrib; reflexivity|].
  split; [reflexivity|].
  exact (proj2 (Hreport st0 _ st0 eq_refl) _ eq_refl).
Defined.

(** Counterexample to C3: with the empty string as declared message, the
    empty required field gets no entry at all. *)
Lemma required_empty_message_unreported :
  obj_get silent_schema "login" = Some [("required", vstr "")]
  /\ empty_value (data_get silent_data "login") = true
  /\ validateField rt silent_schema "login" silent_data st0 = (Ret (Some []), st0)
  /\ validateForm rt silent_schema silent_data st0 = (Ret [], st0).
Proof. repeat split; reflexivity. Qed.

(** Witness of C3 as amended, on the documentation's schema. *)
Lemma required_message_reported_witness :
  NoDup (obj_keys login_schema)
  /\ truthy (declared_message (vstr "Field is required")) = true
  /\ empty_value (data_get login_data "login") = true
  /\ (exists res msgs,
        validateField rt login_schema "login" login_data st0 = (Ret res, st0)
        /\ entry res "login" = Some msgs /\ In (vstr "Field is required") msgs)
  /\ (exists r msgs,
        validateForm rt login_schema login_data st0 = (Ret r, st0)
        /\ obj_get r "login" = Some msgs /\ In (vstr "Field is required") msgs).
Proof.
  assert (Hin : In ("required", vstr "Field is required")
                  [("required", vstr "Field is required");
                   ("min", VArr [vnum 4; vstr "Login must contain at least 4 characters"])])
    by now left.
  pose proof (@required_message_reported _ rt login_schema "login" _
                (vstr "Field is required") login_data
                login_schema_NoDup eq_refl Hin eq_refl eq_refl) as [Hfield Hform].
  split; [exact login_schema_NoDup|]. split; [reflexivity|]. split; [reflexivity|]. split.
  - destruct (Hfield st0 _ st0 eq_refl) as (msgs & He & Hm).
    eexists. exists msgs. split; [reflexivity|]. split; assumption.
  - destruct (Hform st0 _ st0 eq_refl) as (msgs & He & Hm).
    eexists. exists msgs. split; [reflexivity|]. split; assumption.
Defined.



(** A pattern name that the registry inherits: [constructor] passes on the
    empty string and throws on every other value. *)
Example inherited_pattern_name :
  checkConstraint rt "pattern" (Scalar (PStr ""))
    (VArr [vstr "constructor"; vstr "Bad"]) [] st0
  = (Ret (vbool true), st0)
  /\ checkConstraint rt "pattern" (Scalar (PStr "12345"))
       (VArr [vstr "constructor"; vstr "Bad"]) [] st0
     = (Throw TypeError, st0)
  /\ validateForm rt [("zip", [("pattern", VArr [vstr "constructor"; vstr "Bad"])])]
       zip_data st0
     = (Throw TypeError, st0).
Proof. repeat split; reflexivity. Qed.

(** Witness of C6 on the digit string [123], which [number] rejects, on
    [12ab], which [integer] accepts, and on [1x5], which [double] accepts. *)
Lemma registry_patterns_accept_witness :
  ~ In (Patterns.code "\") (Regex.code_units "123")
  /\ Regex.test Patterns.number "123" = false
  /\ Regex.test Patterns.integer "12ab" = true
  /\ Regex.test Patterns.double "1x5" = true.
Proof.
  destruct registry_patterns_accept as (_ & _ & Hinteger & Hdouble & Hnumber).
  assert (H : ~ In (Patterns.code "\") (Regex.code_units "123")).
  { cbn. intros [H|[H|[H|[]]]]; discriminate. }
  split; [exact H|]. split; [exact (Hnumber "123" H)|]. split.
  - rewrite Hinteger. reflexivity.
  - apply Hdouble. exists [49%N], 120%N, [53%N].
    repeat split; try reflexivity; discriminate.
Defined.

(** The registry on sample strings, and the report of [validateForm] for a
    digit string under [number] and digits followed by letters under
    [integer]. *)
Example registry_patterns_on_sample_strings :
  Regex.test Patterns.email "a@b.c" = true
  /\ Regex.test Patterns.email "a b@c.d" = false
  /\ Regex.test Patterns.email "a@b" = false
  /\ Regex.test Patterns.alpha "abc 123" = true
  /\ Regex.test Patterns.alpha "a.b" = false
  /\ Regex.test Patterns.double "12.5" = true
  /\ Regex.test Patterns.double "1x5" = true
  /\ Regex.test Patterns.integer "12" = true
  /\ Regex.test Patterns.integer "12ab" = true
  /\ Regex.test Patterns.number "123" = false
  /\ Regex.test Patterns.number "-12.5" = false
  /\ validateForm rt numeric_schema numeric_data st0
     = (Ret [("n", [vstr "Not a number"])], st0).
Proof. repeat split; reflexivity. Qed.

(** Counterexample to C8: [/a/g] remembers where its last match ended.  The callbacks are
    pure, the schema and the data are the same, and yet the first call
    returns the empty report and the second one a message. *)
Lemma global_regexp_breaks_repeatability :
  pure_callbacks rt
  /\ fst (validateForm rt global_schema global_data st0) = Ret []
  /\ fst (validateForm rt global_schema global_data
            (snd (validateForm rt global_schema global_data st0)))
     = Ret [("code", [vstr "bad"])].
Proof.
  split; [exact callbacks_are_pure|]. split; reflexivity.
Qed.

(** A validator that is not pure breaks repeatability as well: the premise
    on the caller's functions is needed.  So does an object that is given
    to [regexp] with a [test] of its own that is not pure, as in
    [{ code: { regexp: [{ test: f }, 'bad'] } }]. *)
Example impure_validator_breaks_repeatability :
  fst (validateForm moody_rt true_schema true_data moody_st0) = Ret []
  /\ fst (validateForm moody_rt true_schema true_data
            (snd (validateForm moody_rt true_schema true_data moody_st0)))
     = Ret [("password", [vstr "Try again"])]
  /\ flagless_schema [("code", [("regexp", VArr [VObj [("test", VFun 0 1)]; vstr "bad"])])]
     = true
  /\ fst (validateForm moody_rt
            [("code", [("regexp", VArr [VObj [("test", VFun 0 1)]; vstr "bad"])])]
            global_data moody_st0)
     = Ret [("code", [vstr "bad"])]
  /\ fst (validateForm moody_rt
            [("code", [("regexp", VArr [VObj [("test", VFun 0 1)]; vstr "bad"])])]
            global_data
            (snd (validateForm moody_rt
                    [("code", [("regexp", VArr [VObj [("test", VFun 0 1)]; vstr "bad"])])]
                    global_data moody_st0)))
     = Ret [].
Proof. repeat split; reflexivity. Qed.

(** Witness of C8 as amended, on a schema whose regular expression has no
    flag. *)
Lemma validateForm_repeatable_witness :
  pure_callbacks rt
  /\ flagless_schema digits_schema = true
  /\ fst (validateForm rt digits_schema digits_data
            (snd (validateForm rt digits_schema digits_data st0)))
     = fst (validateForm rt digits_schema digits_data st0)
  /\ snd (validateForm rt digits_schema digits_data st0) = st0.
Proof.
  pose proof (validateForm_repeatable digits_schema digits_data callbacks_are_pure
                eq_refl st0 st0) as (Htwice & Hstore & _).
  split; [exact callbacks_are_pure|]. split; [reflexivity|]. split; assumption.
Defined.

End Examples.

(** * Further properties of the engine *)

Section StringFacts.

Lemma split_dot_nonempty (s : string) : split_dot s <> [].
Proof.
  destruct s as [|c s]; cbn [split_dot]; [discriminate|].
  destruct (Ascii.eqb c "."); [discriminate|]. destruct (split_dot s); discriminate.
Qed.

Lemma split_dot_dotless (s : string) : dotless s = true -> split_dot s = [s].
Proof.
  induction s as [|c s IH]; [reflexivity|].
  unfold dotless. cbn [list_ascii_of_string forallb split_dot].
  intros H. apply andb_true_iff in H. destruct H as [Hc Hs].
  apply negb_true_iff in Hc. rewrite Hc. now rewrite (IH Hs).
Qed.

(** Splitting at the dots splits at each of them. *)
Lemma split_dot_app (a e : string) :
  split_dot (a ++ String "." e) = split_dot a ++ split_dot e.
Proof.
  induction a as [|c a IH]; [reflexivity|].
  cbn [String.append split_dot]. rewrite IH.
  destruct (Ascii.eqb c "."); [reflexivity|].
  pose proof (split_dot_nonempty a) as Hne.
  destruct (split_dot a) as [|piece rest]; [contradiction|reflexivity].
Qed.

Lemma last_app_nonempty (A : Type) (l1 l2 : list A) (d : A) :
  l2 <> [] -> last (l1 ++ l2) d = last l2 d.
Proof.
  intros H. induction l1 as [|x l1 IH]; [reflexivity|].
  cbn [app]. destruct (l1 ++ l2) eqn:E.
  - apply app_eq_nil in E. destruct E. contradiction.
  - exact IH.
Qed.

Lemma extension_dotless (name : string) : dotless name = true -> extension name = name.
Proof.
  intros H. unfold extension. now rewrite split_dot_dotless.
Qed.

Lemma extension_app (base e : string) :
  dotless e = true -> extension (base ++ String "." e) = e.
Proof.
  intros H. unfold extension. rewrite split_dot_app.
  rewrite last_app_nonempty by apply split_dot_nonempty.
  now rewrite split_dot_dotless.
Qed.

End StringFacts.

Section MoreOfTheEngine.

Variable W : Type.
Variable rt : env W.
Implicit Types (st : store W) (errors : errorReport) (msgs : list value).
Implicit Types (sch : schema) (data : dataRecord) (fieldName : string).

Lemma checkConstraint_unreadable constraintName fieldValue constraintParams data st :
  readable fieldValue = false ->
  checkConstraint rt constraintName fieldValue constraintParams data st = (Throw TypeError, st).
Proof.
  destruct fieldValue as [[| | | |]| |]; try discriminate; reflexivity.
Qed.

Lemma checkConstraints_unreadable fieldName c constraints data st :
  readable (data_get data fieldName) = false ->
  checkConstraints rt fieldName (c :: constraints) data st = (Throw TypeError, st).
Proof.
  intros H. unfold checkConstraints.
  replace (short_circuit fieldName (c :: constraints) data) with false.
  - destruct c as [n p]. cbn [for_of]. unfold bind, check_step, bind.
    now rewrite checkConstraint_unreadable.
  - unfold short_circuit. now destruct (data_get data fieldName) as [[| | | |]| |].
Qed.

(** X1.  A declared field with at least one constraint for which the data
    record has no value ([data[fieldName]] is [undefined], the record
    having no such property and inheriting none, or [null]) cannot be
    validated: [validateField] throws a [TypeError] and [validateForm]
    never returns a report. *)
Theorem missing_value_throws sch fieldName c constraints data :
  readable (data_get data fieldName) = false ->
  (obj_get sch fieldName = Some (c :: constraints) ->
   forall st, validateField rt sch fieldName data st = (Throw TypeError, st))
  /\ (In (fieldName, c :: constraints) sch ->
      forall st, exists e st', validateForm rt sch data st = (Throw e, st')).
Proof.
  intros Hr. split.
  - intros H st. unfold validateField. rewrite H. now apply checkConstraints_unreadable.
  - intros Hin. unfold validateForm. generalize (@nil (string * list value)) as acc.
    induction sch as [|[f rules] rest IH]; [destruct Hin|]. intros acc st.
    cbn [for_of]. unfold bind.
    destruct (form_step rt data acc (f, rules) st) as [[acc'|e] st1] eqn:E.
    + destruct Hin as [[= -> ->]|Hin].
      * unfold form_step, bind in E. rewrite checkConstraints_unreadable in E by exact Hr.
        discriminate.
      * now apply IH.
    + now exists e, st1.
Qed.

Lemma file_ext_result name size type constraintParams data st :
  checkConstraint rt "ext" (File name size type) constraintParams data st
  = (p0 <- param0 constraintParams ;;
     ret (vbool (strict_eq_prim (PStr (extension name)) p0))) st.
Proof.
  cbn. unfold param0, bind, lift, ret.
  now destruct (get_index constraintParams 0).
Qed.

(** X2.  The extension that [ext] compares is what follows the last dot of
    the file name, and the whole name when it has no dot: against a wanted
    string, [ext] passes exactly when that part equals it. *)
Theorem ext_compares_what_follows_the_last_dot base e wanted rest size type data st :
  dotless e = true ->
  checkConstraint rt "ext" (File (base ++ String "." e) size type)
    (VArr (vstr wanted :: rest)) data st
  = (Ret (vbool (String.eqb e wanted)), st)
  /\ checkConstraint rt "ext" (File e size type) (VArr (vstr wanted :: rest)) data st
     = (Ret (vbool (String.eqb e wanted)), st).
Proof.
  intros H. rewrite !file_ext_result. unfold param0, bind, lift, ret. cbn [get_index nth].
  now rewrite (extension_app base e H), (extension_dotless e H).
Qed.

(** X3.  A negated constraint evaluates its positive sibling and returns
    the negation of its truthiness, with the same faults and the same
    effect on the store: [notEqual], [notEqualField] and [notIn] on
    scalars, [extNotAllowed], [sizeNotEqual] and [typeNotIn] on file
    descriptors. *)
Theorem negations_negate pos neg constraintParams data st :
  (In (pos, neg) scalar_negations ->
   forall v,
     checkConstraint rt neg (Scalar v) constraintParams data st
     = not_ (checkConstraint rt pos (Scalar v) constraintParams data) st)
  /\ (In (pos, neg) file_negations ->
      forall name size type,
        checkConstraint rt neg (File name size type) constraintParams data st
        = not_ (checkConstraint rt pos (File name size type) constraintParams data) st).
Proof.
  split.
  - intros Hin v. unfold scalar_negations in Hin.
    repeat (destruct Hin as [[= <- <-]|Hin]); try destruct Hin;
      destruct v; try reflexivity;
      cbn; unfold not_, param0, bind, lift, ret;
      destruct (get_index constraintParams 0); reflexivity.
  - intros Hin name size type. unfold file_negations in Hin.
    repeat (destruct Hin as [[= <- <-]|Hin]); try destruct Hin;
      try reflexivity;
      cbn; unfold not_, param0, bind, lift, ret;
      destruct (get_index constraintParams 0); reflexivity.
Qed.

(** X4.  [gt] and [lte] never both pass, and both fail exactly when the
    comparison of the parameter with the value is undefined; the same
    holds of [lt] and [gte]. *)
Theorem order_constraints_may_both_fail v constraintParams p0 data st :
  readable (Scalar v) = true ->
  get_index constraintParams 0 = Ret p0 ->
  (exists g l,
      checkConstraint rt "gt" (Scalar v) constraintParams data st = (Ret (vbool g), st)
      /\ checkConstraint rt "lte" (Scalar v) constraintParams data st = (Ret (vbool l), st)
      /\ g && l = false
      /\ (g || l = false <-> arc rt p0 (VPrim v) = None))
  /\ (exists g l,
      checkConstraint rt "lt" (Scalar v) constraintParams data st = (Ret (vbool g), st)
      /\ checkConstraint rt "gte" (Scalar v) constraintParams data st = (Ret (vbool l), st)
      /\ g && l = false
      /\ (g || l = false <-> arc rt (VPrim v) p0 = None)).
Proof.
  intros Hr Hp0. split.
  - exists (js_gt rt (VPrim v) p0), (js_le rt (VPrim v) p0). repeat split.
    + destruct v; try discriminate; cbn; unfold param0, bind, lift, ret; now rewrite Hp0.
    + destruct v; try discriminate; cbn; unfold param0, bind, lift, ret; now rewrite Hp0.
    + unfold js_gt, js_le. now destruct (arc rt p0 (VPrim v)) as [[|]|].
    + unfold js_gt, js_le. now destruct (arc rt p0 (VPrim v)) as [[|]|].
    + unfold js_gt, js_le. intros ->. reflexivity.
  - exists (js_lt rt (VPrim v) p0), (js_ge rt (VPrim v) p0). repeat split.
    + destruct v; try discriminate; cbn; unfold param0, bind, lift, ret; now rewrite Hp0.
    + destruct v; try discriminate; cbn; unfold param0, bind, lift, ret; now rewrite Hp0.
    + unfold js_lt, js_ge. now destruct (arc rt (VPrim v) p0) as [[|]|].
    + unfold js_lt, js_ge. now destruct (arc rt (VPrim v) p0) as [[|]|].
    + unfold js_lt, js_ge. intros ->. reflexivity.
Qed.



(** X6.  [validate] hands the second element of its parameters to the
    function only when the parameters have exactly three elements; with
    any other number the function is called with the value and the data
    record alone. *)
Theorem validate_passes_the_auxiliary_parameter fieldValue id arity rest data st :
  readable fieldValue = true ->
  checkConstraint rt "validate" fieldValue (VArr (VFun id arity :: rest)) data st
  = if List.length rest =? 2
    then call rt id [field_to_value fieldValue; nth 0 rest undefined; data_to_value data] st
    else call rt id [field_to_value fieldValue; data_to_value data] st.
Proof.
  intros Hr.
  assert (H : case_validate rt fieldValue (VArr (VFun id arity :: rest)) data st
              = if List.length rest =? 2
                then call rt id [field_to_value fieldValue; nth 0 rest undefined;
                                 data_to_value data] st
                else call rt id [field_to_value fieldValue; data_to_value data] st).
  { unfold case_validate, bind, lift. cbn [get_length get_index nth List.length].
    destruct rest as [|x [|y [|z rest]]]; try reflexivity.
    cbn [List.length Nat.eqb]. unfold vnum, strict_eq_prim, prim_eqb.
    replace (3 =? Z.of_nat (S (S (S (S (List.length rest))))))%Z with false; [reflexivity|].
    symmetry. apply Z.eqb_neq. lia. }
  destruct fieldValue as [[| | | |]| |m]; try discriminate; try exact H.
  destruct m; exact H.
Qed.

Lemma contribution_length constraintName constraintParams isValidated :
  List.length (contribution constraintName constraintParams isValidated) <= 1.
Proof.
  unfold contribution. cbv zeta. destruct (truthy _); simpl; lia.
Qed.

Lemma messages_in_order_length fieldValue data constraints :
  forall st msgs st',
    messages_in_order rt fieldValue data constraints st = (Ret msgs, st') ->
    List.length msgs <= List.length constraints.
Proof.
  induction constraints as [|[n p] rest IH]; intros st msgs st' H.
  - simpl in H. unfold ret in H. injection H as <- _. simpl. lia.
  - cbn [messages_in_order] in H. unfold bind in H.
    destruct (checkConstraint rt n fieldValue p data st) as [[iv|e] st1]; [|discriminate].
    destruct (messages_in_order rt fieldValue data rest st1) as [[ms|e] st2] eqn:E;
      [|discriminate].
    unfold ret in H. injection H as <- _. rewrite length_app. cbn [List.length].
    pose proof (contribution_length n p iv). specialize (IH _ _ _ E). lia.
Qed.

(** X7.  A field is reported with at most one message per declared
    constraint. *)
Theorem at_most_one_message_per_constraint sch fieldName constraints data st res st' msgs :
  obj_get sch fieldName = Some constraints ->
  validateField rt sch fieldName data st = (Ret res, st') ->
  entry res fieldName = Some msgs ->
  List.length msgs <= List.length constraints.
Proof.
  intros Hsch H He.
  destruct (validateField_Ret rt _ _ _ _ H) as [[-> _]|(c & ms & E & -> & _ & Hc)];
    [discriminate|].
  rewrite Hsch in Hc. subst c. apply messages_in_order_length in E.
  destruct ms; cbn [entry report_of obj_get] in He; [discriminate|].
  rewrite String.eqb_refl in He. injection He as <-. exact E.
Qed.

Lemma obj_keys_drop_empty (lists : list (string * list value)) :
  NoDup (map fst lists) ->
  obj_keys (drop_empty lists)
  = filter (fun k => match obj_get (drop_empty lists) k with Some _ => true | None => false end)
      (map fst lists)
  /\ (forall k, ~ In k (map fst lists) -> obj_get (drop_empty lists) k = None).
Proof.
  induction lists as [|[f m] rest IH]; intros ND.
  - split; [reflexivity|]. intros k _. reflexivity.
  - inversion ND as [|? ? Hnotin ND']; subst. destruct (IH ND') as [IHk IHn].
    change (drop_empty ((f, m) :: rest)) with (report_of f m ++ drop_empty rest).
    set (D := drop_empty rest) in *.
    assert (Hother : forall k, k <> f -> obj_get (report_of f m ++ D) k = obj_get D k).
    { intros k Hk. apply obj_get_app_None, obj_get_report_of_other. congruence. }
    split.
    + cbn [map fst filter].
      assert (Hf : filter (fun k => match obj_get (report_of f m ++ D) k with
                                    | Some _ => true | None => false end) (map fst rest)
                   = filter (fun k => match obj_get D k with
                                      | Some _ => true | None => false end) (map fst rest)).
      { apply filter_ext_in. intros k Hk. rewrite Hother; [reflexivity|].
        intros ->. contradiction. }
      rewrite Hf, <- IHk. unfold obj_keys. rewrite map_app.
      destruct m as [|x m]; cbn [report_of app map fst obj_get].
      * now rewrite (IHn f Hnotin).
      * now rewrite String.eqb_refl.
    + intros k Hk. cbn [map fst In] in Hk.
      rewrite Hother by (intros ->; apply Hk; now left). apply IHn. tauto.
Qed.

Lemma NoDup_filter (A : Type) (f : A -> bool) (l : list A) : NoDup l -> NoDup (filter f l).
Proof.
  induction 1 as [|x l Hx ND IH]; cbn [filter]; [constructor|].
  destruct (f x); [|exact IH]. constructor; [|exact IH].
  intros H. apply filter_In in H. tauto.
Qed.

(** X8.  The field names of the report of [validateForm] are the declared
    field names that have an entry, in the order of the schema and without
    repetition; a name that the schema does not declare is never
    reported, whatever the data record holds for it. *)
Theorem report_follows_the_schema sch data st r st' :
  NoDup (obj_keys sch) ->
  validateForm rt sch data st = (Ret r, st') ->
  obj_keys r
  = filter (fun k => match obj_get r k with Some _ => true | None => false end) (obj_keys sch)
  /\ NoDup (obj_keys r)
  /\ (forall k, ~ In k (obj_keys sch) -> obj_get r k = None).
Proof.
  intros ND H. rewrite validateForm_in_order in H by exact ND. unfold bind, ret in H.
  destruct (fields_in_order rt data sch st) as [[lists|e] st1] eqn:E; [|discriminate].
  injection H as <- _. destruct (fields_in_order_In rt _ _ _ E) as [Hk _].
  rewrite <- Hk in *. destruct (@obj_keys_drop_empty lists ND) as [H1 H2].
  split; [exact H1|]. split; [|exact H2].
  rewrite H1. now apply NoDup_filter.
Qed.

Lemma fields_in_order_app data (s1 s2 : schema) st :
  fields_in_order rt data (s1 ++ s2) st
  = (l1 <- fields_in_order rt data s1 ;;
     l2 <- fields_in_order rt data s2 ;;
     ret (l1 ++ l2)) st.
Proof.
  revert st. induction s1 as [|[f c] s1 IH]; intros st.
  - cbn [app fields_in_order]. unfold bind, ret.
    now destruct (fields_in_order rt data s2 st) as [[l2|e] st2].
  - cbn [app fields_in_order]. unfold bind at 1 3 4.
    destruct (field_messages rt f c data st) as [[msgs|e] st1]; [|reflexivity].
    unfold bind at 1 3. rewrite IH. unfold bind, ret.
    destruct (fields_in_order rt data s1 st1) as [[l1|e] st2]; [|reflexivity].
    now destruct (fields_in_order rt data s2 st2) as [[l2|e] st3].
Qed.

(** X9.  Validating a schema made of two parts is validating the first
    part, then the second, and putting the second report after the
    first. *)
Theorem validateForm_app (s1 s2 : schema) data st :
  NoDup (obj_keys (s1 ++ s2)) ->
  validateForm rt (s1 ++ s2) data st
  = (r1 <- validateForm rt s1 data ;;
     r2 <- validateForm rt s2 data ;;
     ret (r1 ++ r2)) st.
Proof.
  intros ND. unfold obj_keys in ND. rewrite map_app in ND.
  pose proof (NoDup_app_remove_r _ _ ND) as ND1.
  pose proof (NoDup_app_remove_l _ _ ND) as ND2.
  rewrite validateForm_in_order by (unfold obj_keys; now rewrite map_app).
  unfold bind. rewrite fields_in_order_app.
  rewrite (validateForm_in_order rt data s1 st ND1). unfold bind, ret.
  destruct (fields_in_order rt data s1 st) as [[l1|e] st1]; [|reflexivity].
  rewrite (validateForm_in_order rt data s2 st1 ND2). unfold bind, ret.
  destruct (fields_in_order rt data s2 st1) as [[l2|e] st2]; [|reflexivity].
  unfold drop_empty. now rewrite flat_map_app.
Qed.

End MoreOfTheEngine.

Section FormAndFields.

Variable W : Type.
Variable rt : env W.
Implicit Types (st : store W) (errors : errorReport) (msgs : list value).
Implicit Types (sch : schema) (data : dataRecord) (fieldName : string).

Lemma obj_get_drop_empty_nil (lists : list (string * list value)) fieldName :
  NoDup (map fst lists) -> In (fieldName, []) lists ->
  obj_get (drop_empty lists) fieldName = None.
Proof.
  induction lists as [|[f m] rest IH]; intros ND Hin; [destruct Hin|].
  inversion ND as [|? ? Hnotin ND']; subst.
  change (drop_empty ((f, m) :: rest)) with (report_of f m ++ drop_empty rest).
  destruct Hin as [[= -> ->]|Hin].
  - cbn [report_of app]. now apply obj_keys_drop_empty.
  - rewrite obj_get_app_None; [now apply IH|].
    apply obj_get_report_of_other. intros ->. apply Hnotin.
    change fieldName with (fst (fieldName, @nil value)). now apply in_map.
Qed.

Lemma validateField_shape sch fieldName data st res st' :
  validateField rt sch fieldName data st = (Ret res, st') ->
  res = None \/ exists msgs, res = Some (report_of fieldName msgs).
Proof.
  intros H. destruct (validateField_Ret rt _ _ _ _ H) as [[-> _]|(c & msgs & _ & -> & _)];
    [now left|right; now exists msgs].
Qed.

Lemma validateForm_nonempty sch data st r st' :
  validateForm rt sch data st = (Ret r, st') -> nonempty_lists r.
Proof.
  unfold validateForm. apply (form_loop_invariant rt nonempty_lists); [|constructor].
  intros errors f c msgs _ _. apply nonempty_spread.
Qed.

(** The message of a [required] rule is among the messages of an empty
    field. *)
Lemma required_in_field_messages fieldName constraints constraintParams data st msgs st' :
  In ("required", constraintParams) constraints ->
  truthy (declared_message constraintParams) = true ->
  empty_value (data_get data fieldName) = true ->
  field_messages rt fieldName constraints data st = (Ret msgs, st') ->
  In (declared_message constraintParams) msgs.
Proof.
  intros Hin Htruthy Hempty H. apply field_messages_Ret in H.
  replace (short_circuit fieldName constraints data) with false in H.
  - destruct (messages_in_order_In rt _ _ _ _ H _ _ Hin) as (s1 & s2 & iv & Hc & Hi).
    rewrite required_on_empty in Hc by exact Hempty. injection Hc as <- _.
    rewrite contribution_failed in Hi by discriminate. rewrite Htruthy in Hi.
    apply Hi. now left.
  - symmetry. unfold short_circuit.
    replace (keys_include (obj_keys constraints) "required") with true.
    + apply andb_false_r.
    + symmetry. apply keys_include_In. unfold obj_keys.
      change "required" with (fst ("required", constraintParams)). now apply in_map.
Qed.

(** X10.  With pure callbacks and regular expressions without flags, the
    report of [validateForm] agrees field by field with [validateField]:
    each declared field has in the form's report the entry that its own
    validation gives it. *)
Theorem form_agrees_with_fields sch data st r st' fieldName constraints :
  pure_callbacks rt ->
  flagless_schema sch = true ->
  NoDup (obj_keys sch) ->
  validateForm rt sch data st = (Ret r, st') ->
  obj_get sch fieldName = Some constraints ->
  exists res,
    (forall st0, validateField rt sch fieldName data st0 = (Ret res, st0))
    /\ entry res fieldName = obj_get r fieldName.
Proof.
  intros Hpure Hflag ND H Hsch.
  rewrite validateForm_in_order in H by exact ND. unfold bind, ret in H.
  destruct (fields_in_order rt data sch st) as [[lists|e] st1] eqn:E; [|discriminate].
  injection H as <- _.
  destruct (fields_in_order_In rt _ _ _ E) as [Hk Hfields].
  pose proof (obj_get_In _ _ Hsch) as Hin.
  destruct (Hfields _ _ Hin) as (s1 & s2 & msgs & Hm & Hl).
  assert (Hrules : flagless_rules constraints = true).
  { unfold flagless_schema in Hflag. rewrite forallb_forall in Hflag. apply (Hflag _ Hin). }
  destruct (stateless_checkConstraints Hpure fieldName constraints data Hrules) as [o Ho].
  assert (Hr : obj_get (drop_empty lists) fieldName = obj_get (report_of fieldName msgs) fieldName).
  { destruct msgs as [|x msgs].
    - apply obj_get_drop_empty_nil; [now rewrite Hk|exact Hl].
    - rewrite (@obj_get_drop_empty lists fieldName (x :: msgs));
        [|now rewrite Hk|exact Hl|discriminate].
      cbn [report_of obj_get]. now rewrite String.eqb_refl. }
  pose proof (Ho s1) as H1. rewrite checkConstraints_in_order in H1.
  unfold field_messages in Hm.
  destruct (short_circuit fieldName constraints data).
  - unfold ret in Hm, H1. injection Hm as <- _. injection H1 as <-.
    exists None. split.
    + intros st0. unfold validateField. rewrite Hsch. apply Ho.
    + rewrite Hr. reflexivity.
  - unfold bind, ret in H1. rewrite Hm in H1. injection H1 as <-.
    exists (Some (report_of fieldName msgs)). split.
    + intros st0. unfold validateField. rewrite Hsch. apply Ho.
    + now rewrite Hr.
Qed.

End FormAndFields.

(** * Properties of the hook *)

Section HookFacts.

Variable W : Type.
Variable rt : env W.
Variable sch : schema.
Implicit Types (st : store W) (hs : hook) (data : dataRecord).

Lemma obj_get_delete_same (A : Type) (o : obj A) k : obj_get (obj_delete o k) k = None.
Proof.
  induction o as [|[k' v] o IH]; cbn [obj_delete filter fst]; [reflexivity|].
  destruct (String.eqb k' k) eqn:E; cbn [negb]; [exact IH|].
  cbn [obj_get]. rewrite E. exact IH.
Qed.

Lemma obj_get_delete_other (A : Type) (o : obj A) k g :
  g <> k -> obj_get (obj_delete o k) g = obj_get o g.
Proof.
  intros Hne. induction o as [|[k' v] o IH]; cbn [obj_delete filter fst]; [reflexivity|].
  destruct (String.eqb k' k) eqn:E; cbn [negb obj_get].
  - apply String.eqb_eq in E. subst k'.
    replace (String.eqb k g) with false; [exact IH|].
    symmetry. apply String.eqb_neq. congruence.
  - destruct (String.eqb k' g); [reflexivity|exact IH].
Qed.

Lemma nonempty_delete (errors : errorReport) k :
  nonempty_lists errors -> nonempty_lists (obj_delete errors k).
Proof.
  unfold nonempty_lists, obj_delete. rewrite !Forall_forall.
  intros H e He. apply filter_In in He. now apply H.
Qed.

(** X11.  A field update replaces the entry of that field by what its
    validation gives (no entry when it is valid or not declared), leaves
    the entry of every other field and [isValidated] as they were, and
    changes nothing when the validation throws. *)
Theorem field_update_touches_one_entry name data hs st :
  (forall res st',
      validateField rt sch name data st = (Ret res, st') ->
      exists hs',
        onFieldUpdate rt sch name data hs st = (Ret hs', st')
        /\ obj_get (hook_errors hs') name = entry res name
        /\ (forall g, g <> name -> obj_get (hook_errors hs') g = obj_get (hook_errors hs) g)
        /\ hook_isValidated hs' = hook_isValidated hs)
  /\ (forall e st',
      validateField rt sch name data st = (Throw e, st') ->
      dispatch rt sch (Change name data) (hs, st) = (hs, st')).
Proof.
  split.
  - intros res st' H. unfold onFieldUpdate, bind. rewrite H. unfold ret.
    eexists. split; [reflexivity|]. cbn [hook_errors hook_isValidated].
    apply validateField_shape in H. destruct H as [->|[msgs ->]]; cbn [spread_result entry].
    + split; [apply obj_get_delete_same|]. split; [|reflexivity].
      intros g Hg. now apply obj_get_delete_other.
    + split; [|split; [|reflexivity]].
      * rewrite spread_report_of by apply obj_get_delete_same.
        apply obj_get_app_None, obj_get_delete_same.
      * intros g Hg. rewrite obj_get_spread_other by congruence.
        now apply obj_get_delete_other.
  - intros e st' H. unfold dispatch, handle, onFieldUpdate, bind. cbn [fst snd].
    now rewrite H.
Qed.

(** What a submission that returns has done. *)
Lemma handleSubmit_Ret e callback data hs st hs' st' :
  handleSubmit rt sch e callback data hs st = (Ret hs', st') ->
  exists st1 st2,
    validateForm rt sch data st1 = (Ret (hook_errors hs'), st2)
    /\ hook_isValidated hs' = (List.length (obj_keys (hook_errors hs')) =? 0)
    /\ (if hook_isValidated hs'
        then exists v, call_value rt callback [data_to_value data] st2 = (Ret v, st')
        else st' = st2).
Proof.
  unfold handleSubmit, bind. cbv zeta.
  match goal with
  | |- match ?c with _ => _ end = _ -> _ => destruct c as [[v0|x] st1]; [|discriminate]
  end.
  destruct (validateForm rt sch data st1) as [[r|x] st2] eqn:E; [|discriminate].
  destruct (List.length (obj_keys r) =? 0) eqn:El.
  - destruct (call_value rt callback [data_to_value data] st2) as [[v|x] st3] eqn:Ec;
      [|discriminate].
    unfold ret. intros [= <- <-]. exists st1, st2. cbn [hook_errors hook_isValidated].
    rewrite El. repeat split; [exact E|]. now exists v.
  - unfold ret. intros [= <- <-]. exists st1, st2. cbn [hook_errors hook_isValidated].
    rewrite El. now repeat split.
Qed.

(** X12.  A submission that returns has validated the whole form and
    stored the report as the new errors; [isValidated] tells whether the
    report is empty; the callback has been run, on the data record, exactly
    when it is, and after the validation. *)
Theorem submit_calls_back_on_an_empty_report e callback data hs st hs' st' :
  handleSubmit rt sch e callback data hs st = (Ret hs', st') ->
  exists st1 st2,
    validateForm rt sch data st1 = (Ret (hook_errors hs'), st2)
    /\ (hook_isValidated hs' = true <-> hook_errors hs' = [])
    /\ (hook_errors hs' = [] ->
        exists v, call_value rt callback [data_to_value data] st2 = (Ret v, st'))
    /\ (hook_errors hs' <> [] -> st' = st2).
Proof.
  intros H. apply handleSubmit_Ret in H. destruct H as (st1 & st2 & Hv & Hb & Hc).
  exists st1, st2. rewrite Hb in *. split; [exact Hv|].
  destruct (hook_errors hs') as [|x r]; cbn [obj_keys map List.length Nat.eqb] in *.
  - repeat split; trivial. now intros [].
  - repeat split; try discriminate. intros _. exact Hc.
Qed.

(** X13.  The callback of a submission is reached only with a data record
    in which no field declared [required] with a truthy message is the
    empty string or a file without a name: after a submission that sets
    [isValidated], every such field is filled. *)
Theorem validated_submission_has_required_fields e callback data hs st hs' st'
  fieldName constraints constraintParams :
  NoDup (obj_keys sch) ->
  handleSubmit rt sch e callback data hs st = (Ret hs', st') ->
  hook_isValidated hs' = true ->
  obj_get sch fieldName = Some constraints ->
  In ("required", constraintParams) constraints ->
  truthy (declared_message constraintParams) = true ->
  empty_value (data_get data fieldName) = false.
Proof.
  intros ND H Hval Hsch Hin Htruthy.
  apply handleSubmit_Ret in H. destruct H as (st1 & st2 & Hv & Hb & _).
  rewrite Hval in Hb. symmetry in Hb. apply Nat.eqb_eq in Hb.
  destruct (hook_errors hs') as [|x r]; [|discriminate].
  destruct (empty_value (data_get data fieldName)) eqn:Hempty; [|reflexivity].
  exfalso. rewrite validateForm_in_order in Hv by exact ND. unfold bind, ret in Hv.
  destruct (fields_in_order rt data sch st1) as [[lists|x] st3] eqn:E; [|discriminate].
  injection Hv as Hd _.
  destruct (fields_in_order_In rt _ _ _ E) as [Hk Hfields].
  destruct (Hfields _ _ (obj_get_In _ _ Hsch)) as (s1 & s2 & msgs & Hm & Hl).
  pose proof (required_in_field_messages rt _ _ _ _ _ Hin Htruthy Hempty Hm) as Hi.
  assert (Hg : obj_get (drop_empty lists) fieldName = Some msgs).
  { apply obj_get_drop_empty; [now rewrite Hk|exact Hl|]. intros ->. destruct Hi. }
  rewrite Hd in Hg. discriminate.
Qed.

(** X14.  Whatever happens to the hook, its errors never hold a field
    with an empty list of messages, as long as the reports handed to
    [setErrors] hold none. *)
Theorem errors_never_hold_an_empty_list (evs : list hookEvent) hs st :
  Forall tidy_event evs ->
  nonempty_lists (hook_errors hs) ->
  nonempty_lists (hook_errors (fst (run_events rt sch evs (hs, st)))).
Proof.
  intros Hevs. revert hs st. induction Hevs as [|ev evs Hev _ IH]; intros hs st Hne.
  - exact Hne.
  - cbn [run_events fold_left]. fold (run_events rt sch evs).
    destruct (dispatch rt sch ev (hs, st)) as [hs1 st1] eqn:E. apply IH.
    unfold dispatch in E. cbn [fst snd] in E.
    destruct (handle rt sch ev hs st) as [[hs2|x] st2] eqn:Eh; injection E as <- _;
      [|exact Hne].
    destruct ev as [name data| | |e callback data|r]; cbn [handle] in Eh.
    + unfold onFieldUpdate, bind in Eh.
      destruct (validateField rt sch name data st) as [[res|x] st3] eqn:Ev; [|discriminate].
      unfold ret in Eh. injection Eh as <- _. cbn [hook_errors].
      apply validateField_shape in Ev. destruct Ev as [->|[msgs ->]]; cbn [spread_result].
      * now apply nonempty_delete.
      * apply nonempty_spread. now apply nonempty_delete.
    + unfold ret in Eh. injection Eh as <- _. exact Hne.
    + unfold ret in Eh. injection Eh as <- _. constructor.
    + apply handleSubmit_Ret in Eh. destruct Eh as (s1 & s2 & Hv & _).
      now apply validateForm_nonempty in Hv.
    + unfold ret in Eh. injection Eh as <- _. exact Hev.
Qed.

End HookFacts.

(** * The further properties on concrete schemas *)

Module MoreExamples.
Import Sample.

(** Witness of X1: the data record lacks the declared [password]. *)
Lemma missing_value_throws_witness :
  readable (data_get [("login", Scalar (PStr "alice"))] "password") = false
  /\ validateField rt login_schema "password" [("login", Scalar (PStr "alice"))] st0
     = (Throw TypeError, st0)
  /\ exists e st', validateForm rt login_schema [("login", Scalar (PStr "alice"))] st0
                   = (Throw e, st').
Proof.
  destruct (@missing_value_throws _ rt login_schema "password"
              ("required", vstr "Field is required") [("validator", VFun 0 2)]
              [("login", Scalar (PStr "alice"))] eq_refl) as [Hfield Hform].
  split; [reflexivity|]. split.
  - apply Hfield. reflexivity.
  - apply Hform. right. now left.
Defined.

(** Witness of X2 on [photo.final.png] and on a file named [png]. *)
Lemma ext_compares_what_follows_the_last_dot_witness :
  dotless "png" = true
  /\ checkConstraint rt "ext" (File "photo.final.png" 10 "image/png")
       (VArr [vstr "png"; vstr "Must be png"]) [] st0
     = (Ret (vbool true), st0)
  /\ checkConstraint rt "ext" (File "png" 10 "image/png")
       (VArr [vstr "png"; vstr "Must be png"]) [] st0
     = (Ret (vbool true), st0).
Proof.
  split; [reflexivity|].
  apply (@ext_compares_what_follows_the_last_dot _ rt "photo.final" "png" "png"
           [vstr "Must be png"] 10%Z "image/png" [] st0 eq_refl).
Defined.

(** Witness of X3 on [in] and [notIn]. *)
Lemma negations_negate_witness :
  In ("in", "notIn") scalar_negations
  /\ checkConstraint rt "notIn" (Scalar (PStr "apple"))
       (VArr [VArr [vstr "banana"; vstr "apple"]; vstr "Is a fruit"]) [] st0
     = not_ (checkConstraint rt "in" (Scalar (PStr "apple"))
               (VArr [VArr [vstr "banana"; vstr "apple"]; vstr "Is a fruit"]) []) st0.
Proof.
  assert (H : In ("in", "notIn") scalar_negations) by (right; right; now left).
  split; [exact H|].
  apply (proj1 (negations_negate rt "in" "notIn"
                  (VArr [VArr [vstr "banana"; vstr "apple"]; vstr "Is a fruit"]) [] st0) H).
Defined.

(** Witness of X4: the string [abc] against the number 5. *)
Lemma order_constraints_may_both_fail_witness :
  readable (Scalar (PStr "abc")) = true
  /\ get_index (VArr [vnum 5; vstr "Out of range"]) 0 = Ret (vnum 5)
  /\ exists g l,
      checkConstraint rt "gt" (Scalar (PStr "abc")) (VArr [vnum 5; vstr "Out of range"]) [] st0
      = (Ret (vbool g), st0)
      /\ checkConstraint rt "lte" (Scalar (PStr "abc")) (VArr [vnum 5; vstr "Out of range"]) [] st0
         = (Ret (vbool l), st0)
      /\ g && l = false
      /\ (g || l = false <-> arc rt (vnum 5) (VPrim (PStr "abc")) = None).
Proof.
  split; [reflexivity|]. split; [reflexivity|].
  apply (@order_constraints_may_both_fail _ rt (PStr "abc")
           (VArr [vnum 5; vstr "Out of range"]) (vnum 5) [] st0 eq_refl eq_refl).
Defined.


(** Witness of X6: three parameters, and two. *)
Lemma validate_passes_the_auxiliary_parameter_witness :
  readable (Scalar (PStr "ab")) = true
  /\ checkConstraint rt "validate" (Scalar (PStr "ab"))
       (VArr [VFun 2 3; vnum 7; vstr "Not allowed"]) [] st0
     = call rt 2 [vstr "ab"; vnum 7; VObj []] st0
  /\ checkConstraint rt "validate" (Scalar (PStr "ab"))
       (VArr [VFun 2 2; vstr "Not allowed"]) [] st0
     = call rt 2 [vstr "ab"; VObj []] st0.
Proof.
  split; [reflexivity|]. split.
  - apply (@validate_passes_the_auxiliary_parameter _ rt (Scalar (PStr "ab")) 2 3
             [vnum 7; vstr "Not allowed"] [] st0 eq_refl).
  - apply (@validate_passes_the_auxiliary_parameter _ rt (Scalar (PStr "ab")) 2 2
             [vstr "Not allowed"] [] st0 eq_refl).
Defined.

(** Witness of X7 on the [login] of the documentation's schema. *)
Lemma at_most_one_message_per_constraint_witness :
  validateField rt login_schema "login" login_data st0
  = (Ret (Some [("login", [vstr "Field is required";
                           vstr "Login must contain at least 4 characters"])]), st0)
  /\ List.length [vstr "Field is required"; vstr "Login must contain at least 4 characters"]
     <= 2.
Proof.
  split; [reflexivity|].
  apply (@at_most_one_message_per_constraint _ rt login_schema "login" _ login_data
           st0 _ st0 _ eq_refl eq_refl eq_refl).
Defined.

(** Witness of X8 on the documentation's schema. *)
Lemma report_follows_the_schema_witness :
  NoDup (obj_keys login_schema)
  /\ exists r, validateForm rt login_schema login_data st0 = (Ret r, st0)
               /\ obj_keys r = ["login"; "password"]
               /\ NoDup (obj_keys r)
               /\ obj_get r "email" = None.
Proof.
  split; [exact Examples.login_schema_NoDup|]. eexists. split; [reflexivity|].
  destruct (@report_follows_the_schema _ rt login_schema login_data st0 _ st0
              Examples.login_schema_NoDup eq_refl) as (Hk & Hnd & Hout).
  split; [reflexivity|]. split; [exact Hnd|].
  apply Hout. simpl. intuition discriminate.
Defined.

(** Witness of X9: the documentation's schema as its two fields. *)
Lemma validateForm_app_witness :
  NoDup (obj_keys ([("login", [("required", vstr "Field is required")])]
                   ++ [("password", [("validator", VFun 0 2)])]))
  /\ validateForm rt ([("login", [("required", vstr "Field is required")])]
                      ++ [("password", [("validator", VFun 0 2)])]) login_data st0
     = (r1 <- validateForm rt [("login", [("required", vstr "Field is required")])] login_data ;;
        r2 <- validateForm rt [("password", [("validator", VFun 0 2)])] login_data ;;
        ret (r1 ++ r2)) st0.
Proof.
  assert (ND : NoDup (obj_keys ([("login", [("required", vstr "Field is required")])]
                                ++ [("password", [("validator", VFun 0 2)])]))).
  { repeat constructor; simpl; intuition discriminate. }
  split; [exact ND|]. now apply validateForm_app.
Defined.

(** Witness of X10 on the documentation's schema. *)
Lemma form_agrees_with_fields_witness :
  pure_callbacks rt
  /\ flagless_schema login_schema = true
  /\ NoDup (obj_keys login_schema)
  /\ exists r res,
      validateForm rt login_schema login_data st0 = (Ret r, st0)
      /\ validateField rt login_schema "password" login_data st0 = (Ret res, st0)
      /\ entry res "password" = obj_get r "password".
Proof.
  split; [exact Examples.callbacks_are_pure|]. split; [reflexivity|].
  split; [exact Examples.login_schema_NoDup|].
  destruct (@form_agrees_with_fields _ rt login_schema login_data st0 _ st0 "password" _
              Examples.callbacks_are_pure eq_refl Examples.login_schema_NoDup
              eq_refl eq_refl) as (res & Hres & He).
  eexists. exists res. split; [reflexivity|]. split; [apply Hres|exact He].
Defined.

(** Witness of X11: the errors hold a message from the server for [login]
    and an old one for [password]; the password is then corrected. *)
Lemma field_update_touches_one_entry_witness :
  exists hs',
    onFieldUpdate rt login_schema "password"
      [("login", Scalar (PStr "alice")); ("password", Scalar (PStr "secret"))]
      {| hook_errors := [("login", [vstr "Login is taken"]);
                         ("password", [vstr "Password is too short!"])];
         hook_isValidated := false |} st0
    = (Ret hs', st0)
    /\ obj_get (hook_errors hs') "password" = None
    /\ obj_get (hook_errors hs') "login" = Some [vstr "Login is taken"].
Proof.
  destruct (field_update_touches_one_entry rt login_schema "password"
              [("login", Scalar (PStr "alice")); ("password", Scalar (PStr "secret"))]
              {| hook_errors := [("login", [vstr "Login is taken"]);
                                 ("password", [vstr "Password is too short!"])];
                 hook_isValidated := false |} st0) as [Hret _].
  destruct (Hret _ st0 eq_refl) as (hs' & Hrun & Hself & Hothers & _).
  exists hs'. split; [exact Hrun|]. split; [exact Hself|].
  rewrite (Hothers "login") by discriminate. reflexivity.
Defined.

(** Witness of X12 and X13: a filled form is submitted. *)
Lemma submit_calls_back_on_an_empty_report_witness :
  exists hs',
    handleSubmit rt login_schema
      {| own_keys := ["isTrusted"]; preventDefault := VFun 1 0 |} (VFun 1 1)
      [("login", Scalar (PStr "alice")); ("password", Scalar (PStr "secret"))]
      {| hook_errors := []; hook_isValidated := false |} st0
    = (Ret hs', st0)
    /\ (hook_isValidated hs' = true <-> hook_errors hs' = []).
Proof.
  eexists. split; [reflexivity|].
  destruct (@submit_calls_back_on_an_empty_report _ rt login_schema
              {| own_keys := ["isTrusted"]; preventDefault := VFun 1 0 |} (VFun 1 1)
              [("login", Scalar (PStr "alice")); ("password", Scalar (PStr "secret"))]
              {| hook_errors := []; hook_isValidated := false |} st0 _ st0 eq_refl)
    as (st1 & st2 & _ & Hiff & _).
  exact Hiff.
Defined.

Lemma validated_submission_has_required_fields_witness :
  NoDup (obj_keys login_schema)
  /\ empty_value (data_get [("login", Scalar (PStr "alice"));
                            ("password", Scalar (PStr "secret"))] "login") = false.
Proof.
  split; [exact Examples.login_schema_NoDup|].
  assert (Hin : In ("required", vstr "Field is required")
                  [("required", vstr "Field is required");
                   ("min", VArr [vnum 4; vstr "Login must contain at least 4 characters"])])
    by now left.
  apply (@validated_submission_has_required_fields _ rt login_schema
           {| own_keys := ["isTrusted"]; preventDefault := VFun 1 0 |} (VFun 1 1)
           [("login", Scalar (PStr "alice")); ("password", Scalar (PStr "secret"))]
           {| hook_errors := []; hook_isValidated := false |} st0 _ st0
           "login" _ (vstr "Field is required")
           Examples.login_schema_NoDup eq_refl eq_refl eq_refl Hin eq_refl).
Defined.

(** Witness of X14: a reset, a message from the server, a field update, a
    key and a submission. *)
Lemma errors_never_hold_an_empty_list_witness :
  Forall tidy_event
    [FormReset; SetErrors [("login", [vstr "Login is taken"])]; Change "login" login_data;
     Keydown; Submit {| own_keys := []; preventDefault := undefined |} (VFun 1 1) login_data]
  /\ nonempty_lists
       (hook_errors
          (fst (run_events rt login_schema
                  [FormReset; SetErrors [("login", [vstr "Login is taken"])];
                   Change "login" login_data; Keydown;
                   Submit {| own_keys := []; preventDefault := undefined |} (VFun 1 1)
                     login_data]
                  ({| hook_errors := []; hook_isValidated := false |}, st0)))).
Proof.
  assert (H : Forall tidy_event
                [FormReset; SetErrors [("login", [vstr "Login is taken"])];
                 Change "login" login_data; Keydown;
                 Submit {| own_keys := []; preventDefault := undefined |} (VFun 1 1)
                   login_data]).
  { repeat constructor. discriminate. }
  split; [exact H|].
  apply errors_never_hold_an_empty_list; [exact H|constructor].
Defined.

End MoreExamples.
